(** * Law Meme Generator: the submission handler, the Gemini client and the
      image gallery, embedded shallowly and checked against their
      specification.

    Sources embedded here:
    - [src/services/api.ts]              ([generateMemeDescriptions],
                                          [makeGeminiRequest]);
    - [src/App.tsx]                      ([handleSubmit]);
    - [src/components/ImageDisplay.tsx]  ([handleImageClick],
                                          [handleBackdropClick],
                                          [handleDownload], the caption
                                          expression of the enlarged view).

    JavaScript strings are sequences of UTF-16 code units.  The embedding
    uses [string], whose characters are the code units U+0000 .. U+00FF;
    every primitive below ([trim], [toLowerCase], the regular expressions)
    is the restriction of the JavaScript primitive to that range. *)

From Stdlib Require Import Bool Arith NArith List Ascii String Lia QArith.
From Stdlib Require Import DecimalString.
From Stdlib Require DecimalNat DecimalFacts.
Import ListNotations.

Local Close Scope Q_scope.
Local Open Scope bool_scope.
Local Open Scope list_scope.
Local Open Scope string_scope.

(* ================================================================== *)
(** ** JavaScript string primitives *)
(* ================================================================== *)

Module Js.

Definition code (c : ascii) : N := N_of_ascii c.

Definition in_range (lo hi : N) (c : ascii) : bool :=
  (N.leb lo (code c) && N.leb (code c) hi)%bool.

(** ECMAScript [WhiteSpace] and [LineTerminator] below U+0100: TAB, LF,
    VT, FF, CR, SP and NBSP.  This is the class stripped by
    [String.prototype.trim] and matched by [\s]. *)
Definition is_space (c : ascii) : bool :=
  in_range 9 13 c || N.eqb (code c) 32 || N.eqb (code c) 160.

(** [String.prototype.toLowerCase], one code unit: A-Z, and the Latin-1
    capitals U+00C0 .. U+00DE except the multiplication sign U+00D7. *)
Definition lower_char (c : ascii) : ascii :=
  if in_range 65 90 c
     || (in_range 192 222 c && negb (N.eqb (code c) 215))
  then ascii_of_N (code c + 32) else c.

(** [Canonicalize] of a case-insensitive, non-unicode regular expression:
    the upper-case form when that is one code unit.  U+00B5 and U+00FF
    have upper-case forms beyond U+00FF, which no pattern character of
    this program can equal; they are left as they are. *)
Definition canonicalize (c : ascii) : ascii :=
  if in_range 97 122 c
     || (in_range 224 254 c && negb (N.eqb (code c) 247))
  then ascii_of_N (code c - 32) else c.

Fixpoint toLowerCase (s : string) : string :=
  match s with
  | EmptyString => EmptyString
  | String c r => String (lower_char c) (toLowerCase r)
  end.

Fixpoint trimStart (s : string) : string :=
  match s with
  | EmptyString => EmptyString
  | String c r => if is_space c then trimStart r else s
  end.

Fixpoint trimEnd (s : string) : string :=
  match s with
  | EmptyString => EmptyString
  | String c r =>
      match trimEnd r with
      | EmptyString => if is_space c then EmptyString else String c EmptyString
      | r' => String c r'
      end
  end.

Definition trim (s : string) : string := trimEnd (trimStart s).

(** [s.substring(indexStart, indexEnd)] for non-negative integer
    arguments: both are clamped to the length and swapped when out of
    order. *)
Definition substring (s : string) (indexStart indexEnd : nat) : string :=
  let a := Nat.min indexStart (String.length s) in
  let b := Nat.min indexEnd (String.length s) in
  String.substring (Nat.min a b) (Nat.max a b - Nat.min a b) s.

(** [s.split("\n")]: the pieces between line feeds; never empty. *)
Fixpoint split_lf (s : string) : list string :=
  match s with
  | EmptyString => [EmptyString]
  | String c r =>
      if Ascii.eqb c "010"%char then EmptyString :: split_lf r
      else match split_lf r with
           | [] => [String c EmptyString]
           | l :: ls => String c l :: ls
           end
  end.

(** Truthiness of a string: only the empty string is falsy. *)
Definition truthy (s : string) : bool :=
  match s with EmptyString => false | String _ _ => true end.

(** [String(n)] for a non-negative integer. *)
Definition string_of_nat (n : nat) : string :=
  NilEmpty.string_of_uint (Nat.to_uint n).

(** [a.slice(0, n)] on an array. *)
Definition slice0 {A} (n : nat) (l : list A) : list A := firstn n l.

End Js.


(* ================================================================== *)
(** ** [src/components/ImageDisplay.tsx]: the gallery presenter *)
(* ================================================================== *)

Module ImageDisplay.

Import Js.

(** [useState<number | null>(null)]: the enlarged item, if any. *)
Definition EnlargedSelection := option nat.

(** [handleImageClick]:
    [setEnlargedImage(enlargedImage === index ? null : index)]. *)
Definition handleImageClick
    (enlargedImage : EnlargedSelection) (index : nat) : EnlargedSelection :=
  match enlargedImage with
  | Some current => if Nat.eqb current index then None else Some index
  | None => Some index
  end.

(** [handleBackdropClick]: [setEnlargedImage(null)]. *)
Definition handleBackdropClick (_ : EnlargedSelection) : EnlargedSelection :=
  None.

(** *** The download file name *)

(** The character class [[a-z0-9\s-]]. *)
Definition in_filename_class (c : ascii) : bool :=
  in_range 97 122 c || in_range 48 57 c || is_space c || N.eqb (code c) 45.

(** [.replace(/[^a-z0-9\s-]/g, "")]: every character outside the class is
    deleted. *)
Fixpoint remove_special (s : string) : string :=
  match s with
  | EmptyString => EmptyString
  | String c r =>
      if in_filename_class c then String c (remove_special r)
      else remove_special r
  end.

(** [.replace(/\s+/g, "-")]: scanning from the left, a maximal run of
    white space becomes one hyphen.  [in_run] tells that the character
    before was white space of a run whose hyphen is already written. *)
Fixpoint hyphenate_from (in_run : bool) (s : string) : string :=
  match s with
  | EmptyString => EmptyString
  | String c r =>
      if is_space c
      then if in_run then hyphenate_from true r
           else String "-" (hyphenate_from true r)
      else String c (hyphenate_from false r)
  end.

Definition hyphenate (s : string) : string := hyphenate_from false s.

(** The chain that computes [cleanDescription] in [handleDownload]. *)
Definition cleanDescription (description : string) : string :=
  substring
    (hyphenate (trim (remove_special (toLowerCase description)))) 0 30.

(** The file name of [handleDownload]: [description] is
    [descriptions[index]], [None] when that is [undefined];
    [if (description)] is false for [undefined] and for the empty
    string. *)
Definition computeDownloadFilename
    (index : nat) (description : option string) : string :=
  let filename :=
    match description with
    | Some d =>
        if truthy d then "law-meme-" ++ cleanDescription d
        else "law-meme-" ++ string_of_nat (index + 1)
    | None => "law-meme-" ++ string_of_nat (index + 1)
    end in
  filename ++ ".png".

(** The anchor element built by [handleDownload]. *)
Record Anchor := { href : string; download : string }.

(** [handleDownload(index, e)]: nothing happens unless
    [index >= 0 && index < images.length]. *)
Definition handleDownload
    (images descriptions : list string) (index : nat) : option Anchor :=
  match nth_error images index with
  | Some imageData =>
      Some {| href := "data:image/png;base64," ++ imageData;
              download :=
                computeDownloadFilename index (nth_error descriptions index) |}
  | None => None
  end.

(** Every character of [s] satisfies [p]. *)
Fixpoint all_chars (p : ascii -> bool) (s : string) : bool :=
  match s with
  | EmptyString => true
  | String c r => p c && all_chars p r
  end.

(** The character class [[a-z0-9-]]. *)
Definition filename_body_char (c : ascii) : bool :=
  in_range 97 122 c || in_range 48 57 c || N.eqb (code c) 45.

(** *** The caption of the enlarged view *)

(** A literal of a regular expression with the [i] flag, matched at the
    start of [s]; the rest of [s] on success. *)
Fixpoint match_literal_i (pattern s : string) : option string :=
  match pattern with
  | EmptyString => Some s
  | String p pattern' =>
      match s with
      | String c s' =>
          if Ascii.eqb (canonicalize c) (canonicalize p)
          then match_literal_i pattern' s' else None
      | EmptyString => None
      end
  end.

(** [\s+]: at least one white-space character, then as many as follow.
    What follows [\s+] in the pattern is a letter, so giving back white
    space never helps a match. *)
Definition match_spaces1 (s : string) : option string :=
  match s with
  | String c r => if is_space c then Some (trimStart r) else None
  | EmptyString => None
  end.

(** [[.:,]?]: one optional punctuation character, taken when present. *)
Definition match_opt_punct (s : string) : string :=
  match s with
  | String c r =>
      if Ascii.eqb c "." || Ascii.eqb c ":" || Ascii.eqb c ","
      then r else s
  | EmptyString => s
  end.

(** [/^square\s+image[.:,]?\s*/i]: the text after the match. *)
Definition match_square_image (s : string) : option string :=
  match match_literal_i "square" s with
  | Some s1 =>
      match match_spaces1 s1 with
      | Some s2 =>
          match match_literal_i "image" s2 with
          | Some s3 => Some (trimStart (match_opt_punct s3))
          | None => None
          end
      | None => None
      end
  | None => None
  end.

(** [/^squareimage[.:,]?\s*/i]: the text after the match. *)
Definition match_squareimage (s : string) : option string :=
  match match_literal_i "squareimage" s with
  | Some s1 => Some (trimStart (match_opt_punct s1))
  | None => None
  end.

(** [s.replace(re, "")] for an anchored pattern [re]. *)
Definition replace_prefix (re : string -> option string) (s : string)
  : string :=
  match re s with Some rest => rest | None => s end.

(** The expression rendered after "Prompt: ":
    [.replace(/^square\s+image[.:,]?\s*/i, "")
     .replace(/^squareimage[.:,]?\s*/i, "").trim()]. *)
Definition computeDisplayDescription (raw : string) : string :=
  trim (replace_prefix match_squareimage
          (replace_prefix match_square_image raw)).

(** Whether the text starts with the marker phrase, in either spelling. *)
Definition leading_marker (s : string) : bool :=
  match match_square_image s, match_squareimage s with
  | None, None => false
  | _, _ => true
  end.

(** *** Clicks on the gallery *)

(** The elements of the rendered gallery that react to a click.  The grid
    renders one [ImageItem] and one [DownloadButton] for every position of
    [images]; the other four belong to the enlarged view, which is
    rendered only while an item is enlarged. *)
Inductive Click : Type :=
| ImageItem (index : nat)
| DownloadButton (index : nat)
| EnlargedBackdrop
| EnlargedContainer
| EnlargedDownloadButton
| CloseButton.

(** The element is on the page for these [images]. *)
Definition rendered (images : list string) (c : Click) : Prop :=
  match c with
  | ImageItem index | DownloadButton index => index < List.length images
  | _ => True
  end.

(** One click: the selection after it and the anchor it downloads, if
    any.  A download button stops the propagation of its click, so the
    cell (or the backdrop) behind it does not react; so does the enlarged
    container.  The click on the close button also reaches the backdrop,
    and both handlers clear the selection. *)
Definition click (images descriptions : list string) (c : Click)
    (enlargedImage : EnlargedSelection) : EnlargedSelection * option Anchor :=
  match c with
  | ImageItem index => (handleImageClick enlargedImage index, None)
  | DownloadButton index =>
      (enlargedImage, handleDownload images descriptions index)
  | EnlargedBackdrop => (handleBackdropClick enlargedImage, None)
  | CloseButton =>
      (handleBackdropClick (handleBackdropClick enlargedImage), None)
  | EnlargedContainer => (enlargedImage, None)
  | EnlargedDownloadButton =>
      match enlargedImage with
      | Some index =>
          (enlargedImage, handleDownload images descriptions index)
      | None => (enlargedImage, None)
      end
  end.

(** A series of clicks: the selection at the end and the anchors
    downloaded on the way, in order. *)
Fixpoint clicks (images descriptions : list string) (cs : list Click)
    (enlargedImage : EnlargedSelection)
  : EnlargedSelection * list Anchor :=
  match cs with
  | [] => (enlargedImage, [])
  | c :: rest =>
      let '(enlargedImage', downloaded) :=
        click images descriptions c enlargedImage in
      let '(final, later) := clicks images descriptions rest enlargedImage' in
      (final,
       match downloaded with
       | Some a => a :: later
       | None => later
       end)
  end.

(** The enlarged item, when there is one, is a position of [images]. *)
Definition valid_selection (images : list string)
    (enlargedImage : EnlargedSelection) : Prop :=
  match enlargedImage with
  | Some index => index < List.length images
  | None => True
  end.

(** The anchor is for an image of the gallery and named after the
    description at the same position. *)
Definition anchor_of (images descriptions : list string) (a : Anchor) : Prop :=
  exists index imageData,
    nth_error images index = Some imageData
    /\ href a = "data:image/png;base64," ++ imageData
    /\ download a
       = computeDownloadFilename index (nth_error descriptions index).

(** A letter A-Z turned into a-z, every other character left as it is. *)
Definition ascii_lower_char (c : ascii) : ascii :=
  if in_range 65 90 c then ascii_of_N (code c + 32) else c.

(** The text with its letters A-Z turned into a-z. *)
Fixpoint ascii_lower (s : string) : string :=
  match s with
  | EmptyString => EmptyString
  | String c r => String (ascii_lower_char c) (ascii_lower r)
  end.

(** [s] is a part of [whole], in one piece. *)
Definition piece_of (s whole : string) : Prop :=
  exists before after, whole = before ++ s ++ after.

End ImageDisplay.

(* ================================================================== *)
(** ** The file name as the specification words it *)
(* ================================================================== *)

(** The steps of the specification's [computeDownloadFilename], written on
    the list of the characters of the description and on explicit
    alphabets.  Nothing here uses the embedding of the code; the code is
    compared with it below. *)
Module FilenameSpec.

Definition chars (s : string) : list ascii := list_ascii_of_string s.

(** White space: TAB, LF, VT, FF, CR, SPACE, NBSP. *)
Definition white_space : list ascii :=
  ["009"; "010"; "011"; "012"; "013"; " "; "160"]%char.

Definition capitals : string := "ABCDEFGHIJKLMNOPQRSTUVWXYZ".
Definition letters : string := "abcdefghijklmnopqrstuvwxyz".
Definition digits : string := "0123456789".

Definition member (c : ascii) (alphabet : list ascii) : bool :=
  existsb (Ascii.eqb c) alphabet.

Definition is_white (c : ascii) : bool := member c white_space.

(** The letter at the position of [c] in the capitals, for a capital. *)
Fixpoint lower_of (from to : list ascii) (c : ascii) : ascii :=
  match from, to with
  | u :: from', l :: to' => if Ascii.eqb c u then l else lower_of from' to' c
  | _, _ => c
  end.

(** "Lower-case it".  Only A-Z are mapped: any other character that
    lower-casing changes is outside [[a-z0-9\s-]] before and after, and
    goes away in the next step. *)
Definition lower_case (l : list ascii) : list ascii :=
  map (lower_of (chars capitals) (chars letters)) l.

(** "Strip every character outside [[a-z0-9\s-]]". *)
Definition allowed : list ascii :=
  (chars letters ++ chars digits ++ ["-"%char] ++ white_space)%list.

Definition strip (l : list ascii) : list ascii :=
  filter (fun c => member c allowed) l.

(** "Trim": the white space at the start goes, and, the same way on the
    reversed text, the white space at the end. *)
Fixpoint drop_white (l : list ascii) : list ascii :=
  match l with
  | [] => []
  | c :: r => if is_white c then drop_white r else l
  end.

Definition trim (l : list ascii) : list ascii :=
  rev (drop_white (rev (drop_white l))).

(** "Collapse white-space runs to single hyphens": a white-space
    character followed by another one is dropped, the last one of a run
    becomes the hyphen. *)
Fixpoint collapse (l : list ascii) : list ascii :=
  match l with
  | [] => []
  | c :: r =>
      if is_white c
      then match r with
           | c' :: _ => if is_white c' then collapse r else "-"%char :: collapse r
           | [] => ["-"%char]
           end
      else c :: collapse r
  end.

(** The body of the file name: "truncate to the first 30 characters of
    the cleaned string". *)
Definition body (description : string) : string :=
  string_of_list_ascii
    (firstn 30 (collapse (trim (strip (lower_case (chars description)))))).

(** The value of a decimal digit. *)
Fixpoint position (c : ascii) (alphabet : list ascii) : option nat :=
  match alphabet with
  | [] => None
  | a :: rest =>
      if Ascii.eqb c a then Some 0 else option_map S (position c rest)
  end.

(** The number that a string of digits writes, read from the left. *)
Fixpoint value (acc : nat) (l : list ascii) : option nat :=
  match l with
  | [] => Some acc
  | c :: r =>
      match position c (chars digits) with
      | Some v => value (10 * acc + v) r
      | None => None
      end
  end.

(** [numeral] is the decimal writing of [n], with no leading zero. *)
Definition numeral_of (n : nat) (numeral : string) : Prop :=
  value 0 (chars numeral) = Some n
  /\ match numeral with
     | EmptyString => False
     | String c _ => c <> "0"%char
     end.

End FilenameSpec.

(* ================================================================== *)
(** ** [src/services/api.ts]: the description and image clients *)
(* ================================================================== *)

(** A promise, seen by the code that awaits it: fulfilled with a value or
    rejected. *)
Inductive Settled (A : Type) : Type :=
| Fulfilled (value : A)
| Rejected.
Arguments Fulfilled {A} value.
Arguments Rejected {A}.

(** The body of a [try] block: it completes with a value or throws. *)
Inductive Completion (A : Type) : Type :=
| Normal (value : A)
| Thrown.
Arguments Normal {A} value.
Arguments Thrown {A}.

(** [GEMINI_API_KEY] comes from [src/constants], which is configuration:
    [undefined] or a string, tested with [!apiKey]. *)
Definition key_present (apiKey : option string) : bool :=
  match apiKey with Some k => Js.truthy k | None => false end.

Module Api.

Import Js.

Record InlineData := { mimeType : string; data : string }.

(** [GeminiImagePart]: both fields are optional. *)
Record GeminiImagePart :=
  { text : option string; inlineData : option InlineData }.

(** One element of [candidates]; [parts] is [content.parts]. *)
Record Candidate := { parts : list GeminiImagePart }.

(** [GeminiResponse]: [response.data.candidates]. *)
Definition GeminiResponse := list Candidate.

(** What [axios.post] is given: the model in the URL, the key, and the
    text of the single part of [contents]. *)
Record PostRequest :=
  { model : string; key : string; promptText : string;
    responseModalities : list string }.

Definition lawMemeInstructions : string :=
  "You are a NZ law meme generator. Create 4 different humorous, witty, and creative meme descriptions related to law, legal concepts, lawyers, judges, courtrooms, or legal proceedings. Each description clear and be detailed enough to create a unique and entertaining visual meme. Make sure to include very different formats, including cartoons, pictures with text, doge, and 4-panel comics. Do not include more than 12 words for the text conent of each meme (the description should be much more than 12 words). Respond with exactly 4 descriptions, each on a new line, without any additional text, numbering, or formatting. Make sure to include details of the user's prompt, like names, places or concepts given in every meme description. Each description MUST state at the beginning 'Square image.'".

Definition LF : string := String "010" EmptyString.

(** [part.text] as a condition: present and not the empty string. *)
Definition has_text (part : GeminiImagePart) : bool :=
  match text part with Some t => truthy t | None => false end.

(** [part.inlineData] as a condition: present (an object is truthy). *)
Definition has_inlineData (part : GeminiImagePart) : bool :=
  match inlineData part with Some _ => true | None => false end.

(** [line.trim() !== ""]. *)
Definition non_blank (line : string) : bool :=
  negb (String.eqb (trim line) "").

(** The request posted by [generateMemeDescriptions]. *)
Definition description_request (k prompt : string) : PostRequest :=
  {| model := "gemini-2.0-flash"; key := k;
     promptText := lawMemeInstructions ++ LF ++ LF ++ "Topic: " ++ prompt;
     responseModalities := [] |}.

(** The request posted by [makeGeminiRequest]. *)
Definition image_request (k prompt : string) : PostRequest :=
  {| model := "gemini-2.0-flash-exp-image-generation"; key := k;
     promptText := prompt; responseModalities := ["Text"; "Image"] |}.

Section Client.

(** The transport: how an [axios.post] of a request settles. *)
Variable axios_post : PostRequest -> Settled GeminiResponse.

(** The [try] block of [generateMemeDescriptions].  A missing key, a
    rejected post and an empty [candidates] array (reading [.content]
    of [undefined]) throw. *)
Definition generateMemeDescriptions_try
    (apiKey : option string) (prompt : string)
  : Completion (list string) :=
  match apiKey with
  | Some k =>
      if negb (truthy k) then Thrown else
      match axios_post (description_request k prompt) with
      | Rejected => Thrown
      | Fulfilled candidates =>
          match nth_error candidates 0 with
          | None => Thrown
          | Some candidate =>
              match find has_text (parts candidate) with
              | Some textPart =>
                  match text textPart with
                  | Some t =>
                      if truthy t
                      then Normal (slice0 4 (filter non_blank (split_lf t)))
                      else Normal []
                  | None => Normal []
                  end
              | None => Normal []
              end
          end
      end
  | None => Thrown
  end.

(** [generateMemeDescriptions]: the [catch] returns the empty array. *)
Definition generateMemeDescriptions
    (apiKey : option string) (prompt : string) : list string :=
  match generateMemeDescriptions_try apiKey prompt with
  | Normal result => result
  | Thrown => []
  end.

(** The [try] block of [makeGeminiRequest]. *)
Definition makeGeminiRequest_try
    (apiKey : option string) (prompt : string) : Completion string :=
  match apiKey with
  | Some k =>
      if negb (truthy k) then Thrown else
      match axios_post (image_request k prompt) with
      | Rejected => Thrown
      | Fulfilled candidates =>
          match nth_error candidates 0 with
          | None => Thrown
          | Some candidate =>
              match find has_inlineData (parts candidate) with
              | Some imagePart =>
                  match inlineData imagePart with
                  | Some d => Normal (data d)
                  | None => Normal ""
                  end
              | None => Normal ""
              end
          end
      end
  | None => Thrown
  end.

(** [makeGeminiRequest]: the [catch] returns the empty string. *)
Definition makeGeminiRequest
    (apiKey : option string) (prompt : string) : string :=
  match makeGeminiRequest_try apiKey prompt with
  | Normal result => result
  | Thrown => ""
  end.

End Client.

End Api.

(* ================================================================== *)
(** ** [src/App.tsx]: the generation orchestrator *)
(* ================================================================== *)

Module App.

Import Js.

(** The state hooks of [App] that [handleSubmit] reads or writes.
    [loadingProgress] is a JavaScript number; the embedding keeps it as
    an exact rational, and nothing proved below depends on its value
    beyond being written or left alone. *)
Record AppState := mkAppState
  { text : string;
    isLoading : bool;
    showResults : bool;
    images : list string;
    error : option string;
    loadingProgress : Q;
    descriptions : list string }.

(** What the handler does to the outside, in the order it does it.  A
    call of an [async] client starts the request and hands back a
    promise at once; an [await] suspends the handler until its promise
    has settled.  Between two events with no [Await] between them the
    handler runs without interruption, so no promise settles there.
    [SetTimeout] is the last thing the handler does; [TimeoutCallback] is
    the later run of the callback it scheduled. *)
Inductive Event : Type :=
| CallDescriptions (topic : string)
| AwaitDescriptions
| CallImage (index : nat) (description : string)
| AwaitImage (index : nat)
| SetTimeout (ms : nat)
| TimeoutCallback.

(** The collaborators of [handleSubmit]: the configured key and the two
    clients imported from [./services/api] (replaced by mocks in
    [App.test.tsx], which may reject).  [makeGeminiRequest] is given the
    position of the call as well, since two requests with the same
    description need not get the same answer. *)
Record Env :=
  { GEMINI_API_KEY : option string;
    generateMemeDescriptions : string -> Settled (list string);
    makeGeminiRequest : nat -> string -> Settled string }.

Record World := { state : AppState; trace : list Event }.

(** Handler code: it transforms the world and completes or throws. *)
Definition M (A : Type) : Type := World -> Completion A * World.

Definition ret {A} (a : A) : M A := fun w => (Normal a, w).

Definition bind {A B} (m : M A) (k : A -> M B) : M B :=
  fun w =>
    match m w with
    | (Normal a, w') => k a w'
    | (Thrown, w') => (Thrown, w')
    end.

Definition throw {A} : M A := fun w => (Thrown, w).

Definition try_catch {A} (body handler : M A) : M A :=
  fun w =>
    match body w with
    | (Normal a, w') => (Normal a, w')
    | (Thrown, w') => handler w'
    end.

Notation "x <- m ;; k" := (bind m (fun x => k))
  (at level 61, m at next level, right associativity).
Notation "m ;; k" := (bind m (fun _ => k))
  (at level 61, right associativity).

Definition emit (e : Event) : M unit :=
  fun w => (Normal tt, {| state := state w; trace := (trace w ++ [e])%list |}).

Definition modify (f : AppState -> AppState) : M unit :=
  fun w => (Normal tt, {| state := f (state w); trace := trace w |}).

Definition setIsLoading (v : bool) : M unit :=
  modify (fun s => mkAppState (text s) v (showResults s) (images s)
                     (error s) (loadingProgress s) (descriptions s)).
Definition setShowResults (v : bool) : M unit :=
  modify (fun s => mkAppState (text s) (isLoading s) v (images s)
                     (error s) (loadingProgress s) (descriptions s)).
Definition setImages (v : list string) : M unit :=
  modify (fun s => mkAppState (text s) (isLoading s) (showResults s) v
                     (error s) (loadingProgress s) (descriptions s)).
Definition setError (v : option string) : M unit :=
  modify (fun s => mkAppState (text s) (isLoading s) (showResults s)
                     (images s) v (loadingProgress s) (descriptions s)).
Definition setLoadingProgress (v : Q) : M unit :=
  modify (fun s => mkAppState (text s) (isLoading s) (showResults s)
                     (images s) (error s) v (descriptions s)).
Definition setDescriptions (v : list string) : M unit :=
  modify (fun s => mkAppState (text s) (isLoading s) (showResults s)
                     (images s) (error s) (loadingProgress s) v).

(** [await p]: the value of a fulfilled promise; a rejected one throws. *)
Definition await {A} (e : Event) (p : Settled A) : M A :=
  emit e ;;
  match p with
  | Fulfilled v => ret v
  | Rejected => throw
  end.

(** [a.filter((x, index) => keep(index))], counting from [index]. *)
Fixpoint filter_index {A} (keep : nat -> bool) (index : nat) (a : list A)
  : list A :=
  match a with
  | [] => []
  | x :: rest =>
      if keep index then x :: filter_index keep (S index) rest
      else filter_index keep (S index) rest
  end.

(** [generatedImages[index] !== ""]; reading past the end gives
    [undefined], which differs from the empty string. *)
Definition image_present (generatedImages : list string) (index : nat)
  : bool :=
  match nth_error generatedImages index with
  | Some img => negb (String.eqb img "")
  | None => true
  end.

Definition missing_key_message : string :=
  "API key is missing. Please check your .env or .env.local file and make sure REACT_APP_GEMINI_API_KEY is set.".

Definition failure_message : string :=
  "Failed to generate images. Please try again.".

Section Handler.

Variable env : Env.

(** [memeDescriptions.map((description) => makeGeminiRequest(description))]:
    every call is made, in order, while the array of promises is built. *)
Fixpoint call_images (index : nat) (memeDescriptions : list string)
  : M (list (Settled string)) :=
  match memeDescriptions with
  | [] => ret []
  | description :: rest =>
      emit (CallImage index description) ;;
      promises <- call_images (S index) rest ;;
      ret (makeGeminiRequest env index description :: promises)
  end.

(** The [for] loop over [imagePromises], from position [i] on;
    [total] is [imagePromises.length]. *)
Fixpoint await_images (total : nat) (i : nat)
    (imagePromises : list (Settled string)) (generatedImages : list string)
  : M (list string) :=
  match imagePromises with
  | [] => ret generatedImages
  | promise :: rest =>
      generatedImages' <-
        try_catch
          (imageData <- await (AwaitImage i) promise ;;
           let pushed := (generatedImages ++ [imageData])%list in
           let progressIncrement := (70 / inject_Z (Z.of_nat total))%Q in
           setLoadingProgress
             (30 + progressIncrement
                   * inject_Z (Z.of_nat (List.length pushed)))%Q ;;
           ret pushed)
          (ret (generatedImages ++ [""])%list) ;;
      await_images total (S i) rest generatedImages'
  end.

(** The callback given to [setTimeout]. *)
Definition publish (memeDescriptions generatedImages : list string)
  : M unit :=
  let validImages :=
    filter (fun img => negb (String.eqb img "")) generatedImages in
  let validDescriptions :=
    filter_index (image_present generatedImages) 0 memeDescriptions in
  setImages validImages ;;
  setDescriptions validDescriptions ;;
  setIsLoading false ;;
  setShowResults true.

(** The [try] block of [handleSubmit], run until the timer callback
    has finished. *)
Definition try_block (topic : string) : M unit :=
  memeDescriptions <-
    (emit (CallDescriptions topic) ;;
     await AwaitDescriptions (generateMemeDescriptions env topic)) ;;
  (if Nat.eqb (List.length memeDescriptions) 0 then throw else ret tt) ;;
  setDescriptions memeDescriptions ;;
  setLoadingProgress 30 ;;
  imagePromises <- call_images 0 memeDescriptions ;;
  generatedImages <-
    await_images (List.length imagePromises) 0 imagePromises [] ;;
  setLoadingProgress 100 ;;
  emit (SetTimeout 500) ;;
  emit TimeoutCallback ;;
  publish memeDescriptions generatedImages.

(** The [catch] block of [handleSubmit]. *)
Definition catch_block : M unit :=
  setError (Some failure_message) ;;
  setIsLoading false.

(** [handleSubmit]; [text] and [isLoading] are the values of the
    render in which the handler was created. *)
Definition handleSubmit : M unit :=
  fun w =>
  let topic := text (state w) in
  (if negb (truthy (trim topic)) || isLoading (state w) then ret tt
   else if negb (key_present (GEMINI_API_KEY env))
   then setError (Some missing_key_message)
   else
     setIsLoading true ;;
     setLoadingProgress 0 ;;
     setError None ;;
     setImages [] ;;
     setDescriptions [] ;;
     setShowResults false ;;
     try_catch (try_block topic) catch_block) w.

(** The world after a submission that starts in state [s]. *)
Definition submit (s : AppState) : World :=
  snd (handleSubmit {| state := s; trace := [] |}).

End Handler.

(** The clients of [src/services/api.ts] over a transport.  Both catch
    every error, so their promises are always fulfilled. *)
Definition api_env (apiKey : option string)
    (text_post : Api.PostRequest -> Settled Api.GeminiResponse)
    (image_post : nat -> Api.PostRequest -> Settled Api.GeminiResponse)
  : Env :=
  {| GEMINI_API_KEY := apiKey;
     generateMemeDescriptions := fun prompt =>
       Fulfilled (Api.generateMemeDescriptions text_post apiKey prompt);
     makeGeminiRequest := fun i prompt =>
       Fulfilled (Api.makeGeminiRequest (image_post i) apiKey prompt) |}.

(** *** Vocabulary of the statements about [handleSubmit] *)

(** The entry of [generatedImages] that a settled image promise leaves:
    its payload, or the empty placeholder when it rejected. *)
Definition placeholder_or (p : Settled string) : string :=
  match p with Fulfilled imageData => imageData | Rejected => "" end.

(** The promises of the image calls, by position from [index]. *)
Fixpoint image_promises (env : Env) (index : nat)
    (memeDescriptions : list string) : list (Settled string) :=
  match memeDescriptions with
  | [] => []
  | description :: rest =>
      makeGeminiRequest env index description
        :: image_promises env (S index) rest
  end.

(** [generatedImages] once every promise has been awaited. *)
Definition generated (env : Env) (memeDescriptions : list string)
  : list string :=
  map placeholder_or (image_promises env 0 memeDescriptions).

(** The descriptions whose image, at the same position, is not empty. *)
Definition mask_by_image (generatedImages memeDescriptions : list string)
  : list string :=
  map snd
    (filter (fun pair => negb (String.eqb (fst pair) ""))
       (combine generatedImages memeDescriptions)).

Fixpoint call_events (index : nat) (memeDescriptions : list string)
  : list Event :=
  match memeDescriptions with
  | [] => []
  | description :: rest =>
      CallImage index description :: call_events (S index) rest
  end.

Definition await_events (count : nat) : list Event :=
  map AwaitImage (seq 0 count).

Definition non_empty (img : string) : bool := negb (String.eqb img "").

(** The list without its element at position [j]. *)
Definition remove_nth {A} (j : nat) (l : list A) : list A :=
  (firstn j l ++ skipn (S j) l)%list.

(** Position [j] holds the only empty image of [g]. *)
Definition only_failure (j : nat) (g : list string) : Prop :=
  nth_error g j = Some "" /\
  forall k img, k <> j -> nth_error g k = Some img -> img <> "".

(** The state with another progress value: all that the image loop
    writes. *)
Definition with_progress (q : Q) (s : AppState) : AppState :=
  mkAppState (text s) (isLoading s) (showResults s) (images s)
    (error s) q (descriptions s).

(** The guard of [handleSubmit] lets the submission through. *)
Definition accepted (env : Env) (s : AppState) : Prop :=
  truthy (trim (text s)) = true /\ isLoading s = false
  /\ key_present (GEMINI_API_KEY env) = true.

(** Every image request is issued only after the one before it has been
    awaited to completion. *)
Definition one_at_a_time (tr : list Event) : Prop :=
  forall before index description after,
    tr = (before ++ CallImage (S index) description :: after)%list ->
    In (AwaitImage index) before.

(** The clients as [App.test.tsx] mocks them: fixed descriptions, and an
    image client whose answers are listed by call position (a rejection
    past the end of the list). *)
Definition mock_env (memeDescriptions : Settled (list string))
    (answers : list (Settled string)) : Env :=
  {| GEMINI_API_KEY := Some "test-api-key";
     generateMemeDescriptions := fun _ => memeDescriptions;
     makeGeminiRequest := fun index _ => nth index answers Rejected |}.

Definition idle (topic : string) : AppState :=
  mkAppState topic false false [] None 0 [].

(** The image calls of a trace, in the order they were made. *)
Fixpoint image_calls (tr : list Event) : list (nat * string) :=
  match tr with
  | [] => []
  | CallImage index description :: rest =>
      (index, description) :: image_calls rest
  | _ :: rest => image_calls rest
  end.

(** The positions of the image promises awaited in a trace, in order. *)
Fixpoint image_awaits (tr : list Event) : list nat :=
  match tr with
  | [] => []
  | AwaitImage index :: rest => index :: image_awaits rest
  | _ :: rest => image_awaits rest
  end.

(** *** The other handlers of [App] *)

Definition setText (v : string) : M unit :=
  modify (fun s => mkAppState v (isLoading s) (showResults s) (images s)
                     (error s) (loadingProgress s) (descriptions s)).

(** [handleChange]: [setText(e.target.value)]. *)
Definition handleChange (value : string) : M unit := setText value.

(** The fields of the keyboard event that [handleKeyDown] reads. *)
Record KeyboardEvent := { key : string; shiftKey : bool }.

(** [handleKeyDown]; the result tells whether [e.preventDefault()] was
    called (when it was not, the text area handles the key itself: a
    line break for Enter with Shift).  [handleSubmit] is not awaited; it
    is run here to its end, as in [submit]. *)
Definition handleKeyDown (env : Env) (e : KeyboardEvent) : M bool :=
  fun w =>
  (if String.eqb (key e) "Enter" && negb (shiftKey e)
   then
     (if truthy (trim (text (state w))) && negb (isLoading (state w))
      then handleSubmit env
      else ret tt) ;;
     ret true
   else ret false) w.

(** The effect run when [App] is mounted, for the configured key. *)
Definition checkApiKey (apiKey : option string) : M unit :=
  if negb (key_present apiKey)
  then setError (Some missing_key_message)
  else ret tt.

(** The initial values of the state hooks. *)
Definition initial : AppState := mkAppState "" false false [] None 0 [].

(** What the two clients answer during one submission. *)
Record Answers :=
  { describe : string -> Settled (list string);
    draw : nat -> string -> Settled string }.

Definition env_with (apiKey : option string) (a : Answers) : Env :=
  {| GEMINI_API_KEY := apiKey;
     generateMemeDescriptions := describe a;
     makeGeminiRequest := draw a |}.

(** What the user does to [App]: typing, submitting the form, pressing a
    key in the text area.  A submission comes with the answers the
    clients give during its cycle. *)
Inductive Action : Type :=
| Change (value : string)
| SubmitForm (answers : Answers)
| KeyDown (e : KeyboardEvent) (answers : Answers).

(** The state after an action whose cycle, if it starts one, has run to
    its end. *)
Definition act (apiKey : option string) (s : AppState) (a : Action)
  : AppState :=
  let w := {| state := s; trace := [] |} in
  match a with
  | Change value => state (snd (handleChange value w))
  | SubmitForm answers => state (snd (handleSubmit (env_with apiKey answers) w))
  | KeyDown e answers =>
      state (snd (handleKeyDown (env_with apiKey answers) e w))
  end.

(** The state of a mounted [App] after a series of actions. *)
Definition session (apiKey : option string) (actions : list Action)
  : AppState :=
  fold_left (act apiKey) actions
    (state (snd (checkApiKey apiKey {| state := initial; trace := [] |}))).

(** What the page shows is coherent: one description per image, no empty
    image, nothing loading, images only in a revealed gallery, and never a
    gallery together with an error. *)
Definition coherent (s : AppState) : Prop :=
  List.length (images s) = List.length (descriptions s)
  /\ (forall img, In img (images s) -> img <> "")
  /\ isLoading s = false
  /\ (showResults s = false -> images s = [] /\ descriptions s = [])
  /\ (showResults s = true -> error s = None).

End App.

(* ================================================================== *)
(** ** Properties of the string primitives *)
(* ================================================================== *)

Section StringFacts.

Import Js.

Lemma trimStart_head (c : ascii) (r : string) :
  is_space c = false -> trimStart (String c r) = String c r.
Proof. intros H. simpl. now rewrite H. Qed.

Lemma trimEnd_head (c : ascii) (r : string) :
  is_space c = false -> trimEnd (String c r) = String c (trimEnd r).
Proof. intros H. simpl. destruct (trimEnd r); now rewrite ?H. Qed.

(** What [trimStart] leaves does not start with white space. *)
Lemma trimStart_shape (s : string) :
  trimStart s = "" \/
  exists c r, trimStart s = String c r /\ is_space c = false.
Proof.
  induction s as [|c r IH]; [now left|].
  simpl. destruct (is_space c) eqn:E; [exact IH|].
  right. now exists c, r.
Qed.

Lemma trimStart_length (s : string) :
  String.length (trimStart s) <= String.length s.
Proof.
  induction s as [|c r IH]; simpl; [lia|].
  destruct (is_space c); simpl; lia.
Qed.

Lemma trimEnd_length (s : string) :
  String.length (trimEnd s) <= String.length s.
Proof.
  induction s as [|c r IH]; simpl; [lia|].
  destruct (trimEnd r); [destruct (is_space c)|]; simpl in *; lia.
Qed.

Lemma trim_length (s : string) :
  String.length (trim s) <= String.length s.
Proof.
  unfold trim. pose proof (trimEnd_length (trimStart s)).
  pose proof (trimStart_length s). lia.
Qed.

Lemma trimEnd_cons (c : ascii) (r : string) :
  trimEnd (String c r) =
  match trimEnd r with
  | EmptyString => if is_space c then EmptyString else String c EmptyString
  | r' => String c r'
  end.
Proof. reflexivity. Qed.

Lemma trimEnd_idempotent (s : string) : trimEnd (trimEnd s) = trimEnd s.
Proof.
  induction s as [|c r IH]; [reflexivity|].
  rewrite trimEnd_cons. destruct (trimEnd r) as [|c' r'] eqn:E.
  - destruct (is_space c) eqn:Ec; [reflexivity|].
    simpl. now rewrite Ec.
  - rewrite trimEnd_cons, IH. reflexivity.
Qed.

Lemma trimStart_trim (s : string) : trimStart (trim s) = trim s.
Proof.
  unfold trim.
  destruct (trimStart_shape s) as [->|(c & r & -> & Hc)]; [reflexivity|].
  rewrite (trimEnd_head c r Hc). now apply trimStart_head.
Qed.

Lemma trim_idempotent (s : string) : trim (trim s) = trim s.
Proof.
  unfold trim at 1. rewrite trimStart_trim.
  unfold trim. apply trimEnd_idempotent.
Qed.

(** A string that [trim] leaves alone has no white space at its start. *)
Lemma trim_fixed_start (s : string) : trim s = s -> trimStart s = s.
Proof.
  intros H. destruct s as [|c r]; [reflexivity|].
  destruct (is_space c) eqn:Ec; [|now apply trimStart_head].
  exfalso.
  assert (Hlen : String.length (trim (String c r)) <= String.length r).
  { unfold trim. simpl trimStart. rewrite Ec.
    pose proof (trimEnd_length (trimStart r)).
    pose proof (trimStart_length r). lia. }
  rewrite H in Hlen. simpl in Hlen. lia.
Qed.

End StringFacts.

Section TrimShape.

Import Js ImageDisplay.

Lemma trimStart_decompose (s : string) :
  exists l, s = l ++ trimStart s /\ all_chars is_space l = true.
Proof.
  induction s as [|c r (l & Hl & Hsp)].
  - now exists "".
  - simpl. destruct (is_space c) eqn:E.
    + exists (String c l). simpl. rewrite E, Hsp. split; [congruence|reflexivity].
    + now exists "".
Qed.

Lemma trimEnd_decompose (s : string) :
  exists r, s = trimEnd s ++ r /\ all_chars is_space r = true.
Proof.
  induction s as [|c s (r & Hr & Hsp)].
  - now exists "".
  - rewrite trimEnd_cons. destruct (trimEnd s) as [|c' t] eqn:E.
    + destruct (is_space c) eqn:Ec.
      * exists (String c r). simpl in *. rewrite Ec, Hsp.
        split; [congruence|reflexivity].
      * exists r. simpl in *. split; [congruence|assumption].
    + exists r. simpl in *. split; [congruence|assumption].
Qed.

(** [trim] takes white space, and nothing else, off both ends. *)
Lemma trim_decompose (s : string) :
  exists l r,
    s = l ++ trim s ++ r
    /\ all_chars is_space l = true /\ all_chars is_space r = true.
Proof.
  destruct (trimStart_decompose s) as (l & Hl & Hlsp).
  destruct (trimEnd_decompose (trimStart s)) as (r & Hr & Hrsp).
  exists l, r. unfold trim. repeat split; auto. congruence.
Qed.

(** What [trimEnd] leaves does not end with white space. *)
Lemma trimEnd_last (s t : string) (c : ascii) :
  trimEnd s = t ++ String c "" -> is_space c = false.
Proof.
  revert t. induction s as [|x s IH]; intros t H.
  - destruct t; discriminate.
  - rewrite trimEnd_cons in H. destruct (trimEnd s) as [|c' u] eqn:E.
    + destruct (is_space x) eqn:Ex; [destruct t; discriminate|].
      destruct t as [|y t]; simpl in H.
      * congruence.
      * destruct t; discriminate.
    + destruct t as [|y t]; simpl in H; [discriminate|].
      injection H as _ H. now apply (IH t).
Qed.

End TrimShape.

(** *** Runs of white space, and the download anchor *)

Section DownloadFacts.

Import Js ImageDisplay.

(** A word, with no white space in it, is copied. *)
Lemma hyphenate_word (a rest : string) :
  all_chars (fun c => negb (is_space c)) a = true ->
  forall in_run,
    a <> "" ->
    hyphenate_from in_run (a ++ rest) = a ++ hyphenate_from false rest.
Proof.
  induction a as [|c a IH]; intros Hword in_run Hne; [contradiction|].
  simpl in Hword. apply andb_prop in Hword as [Hc Ha].
  apply negb_true_iff in Hc. simpl. rewrite Hc. f_equal.
  destruct a as [|c' a']; [reflexivity|].
  apply IH; [exact Ha|discriminate].
Qed.

(** A run of white space, however long, becomes one hyphen. *)
Lemma hyphenate_run (ws rest : string) :
  all_chars is_space ws = true -> ws <> "" ->
  hyphenate_from false (ws ++ rest) = String "-" (hyphenate_from true rest)
  /\ hyphenate_from true (ws ++ rest) = hyphenate_from true rest.
Proof.
  induction ws as [|c ws IH]; intros Hsp Hne; [contradiction|].
  simpl in Hsp. apply andb_prop in Hsp as [Hc Hws].
  simpl. rewrite Hc.
  destruct ws as [|c' ws']; [split; reflexivity|].
  destruct (IH Hws ltac:(discriminate)) as [_ Htrue].
  rewrite Htrue. split; reflexivity.
Qed.

(** The hyphen of a run is written once: after a run, a character that
    is not white space starts the next word. *)
Lemma hyphenate_after_run (c : ascii) (rest : string) :
  is_space c = false ->
  hyphenate_from true (String c rest) = String c (hyphenate_from false rest).
Proof. intros H. simpl. now rewrite H. Qed.

(** Two words with white space between them are joined by one hyphen. *)
Example hyphenate_two_words :
  hyphenate ("motion" ++ String "009" (String " " (String "010" "denied")))
  = "motion-denied".
Proof. reflexivity. Qed.

(** [handleDownload] names the file by [computeDownloadFilename], given
    the description at the position of the image. *)
Lemma handleDownload_named (images descriptions : list string)
    (index : nat) (imageData : string) :
  nth_error images index = Some imageData ->
  handleDownload images descriptions index =
  Some {| href := "data:image/png;base64," ++ imageData;
          download :=
            computeDownloadFilename index (nth_error descriptions index) |}.
Proof. intros H. unfold handleDownload. now rewrite H. Qed.

Lemma handleDownload_out_of_range (images descriptions : list string)
    (index : nat) :
  List.length images <= index ->
  handleDownload images descriptions index = None.
Proof.
  intros H. unfold handleDownload.
  now rewrite (proj2 (nth_error_None images index) H).
Qed.

End DownloadFacts.

(* ================================================================== *)
(** ** The gallery: selection, caption and file name *)
(* ================================================================== *)

Section CaptionFacts.

Import Js ImageDisplay.

(** After the spaced marker, its punctuation and the white space behind
    it, the caption is what the second pattern and [trim] leave of the
    rest. *)
Lemma caption_after_marker (X : string) :
  trim X = X -> match_literal_i "squareimage" X = None ->
  trim (replace_prefix match_squareimage (trimStart X)) = X.
Proof.
  intros Htrim Hnone. rewrite (trim_fixed_start X Htrim).
  unfold replace_prefix, match_squareimage. now rewrite Hnone.
Qed.

Lemma match_literal_i_length (pattern : string) :
  forall s rest,
    match_literal_i pattern s = Some rest ->
    String.length s = String.length pattern + String.length rest.
Proof.
  induction pattern as [|p pattern IH]; intros s rest H; simpl in H.
  - now injection H as ->.
  - destruct s as [|c s]; [discriminate|].
    destruct (Ascii.eqb (canonicalize c) (canonicalize p)); [|discriminate].
    apply IH in H. simpl. lia.
Qed.

Lemma match_opt_punct_length (s : string) :
  String.length (match_opt_punct s) <= String.length s.
Proof.
  destruct s as [|c r]; simpl; [lia|].
  destruct (Ascii.eqb c "." || Ascii.eqb c ":" || Ascii.eqb c ","); simpl; lia.
Qed.

Lemma match_squareimage_length (s rest : string) :
  match_squareimage s = Some rest -> String.length rest < String.length s.
Proof.
  unfold match_squareimage.
  destruct (match_literal_i "squareimage" s) as [s1|] eqn:E; [|discriminate].
  intros H. injection H as <-. apply match_literal_i_length in E.
  pose proof (trimStart_length (match_opt_punct s1)).
  pose proof (match_opt_punct_length s1). simpl in E. lia.
Qed.

Lemma match_square_image_length (s rest : string) :
  match_square_image s = Some rest -> String.length rest < String.length s.
Proof.
  unfold match_square_image.
  destruct (match_literal_i "square" s) as [s1|] eqn:E1; [|discriminate].
  destruct (match_spaces1 s1) as [s2|] eqn:E2; [|discriminate].
  destruct (match_literal_i "image" s2) as [s3|] eqn:E3; [|discriminate].
  intros H. injection H as <-.
  apply match_literal_i_length in E1, E3.
  assert (String.length s2 <= String.length s1).
  { destruct s1 as [|c r]; [discriminate|]. simpl in E2.
    destruct (is_space c); [|discriminate]. injection E2 as <-.
    pose proof (trimStart_length r). simpl. lia. }
  pose proof (trimStart_length (match_opt_punct s3)).
  pose proof (match_opt_punct_length s3). simpl in E1, E3. lia.
Qed.

(** A text that starts with the marker phrase is made shorter. *)
Lemma computeDisplayDescription_shrinks (t : string) :
  leading_marker t = true ->
  String.length (computeDisplayDescription t) < String.length t.
Proof.
  unfold leading_marker, computeDisplayDescription. intros H.
  match goal with
  | |- String.length (trim ?u) < _ => pose proof (trim_length u) as Htrim
  end.
  unfold replace_prefix in *.
  destruct (match_square_image t) as [r1|] eqn:E1.
  - apply match_square_image_length in E1.
    destruct (match_squareimage r1) as [r2|] eqn:E2.
    + apply match_squareimage_length in E2. lia.
    + lia.
  - destruct (match_squareimage t) as [r2|] eqn:E2; [|discriminate].
    apply match_squareimage_length in E2. lia.
Qed.

End CaptionFacts.

Import ImageDisplay.

(** C8.  Selecting item [i] enlarges it when nothing or another item is
    enlarged, and closes it when it is the enlarged one; so selecting it
    twice from a state where it is not enlarged ends with no selection, and
    selecting it while another item is enlarged switches to it at once. *)
Theorem handleImageClick_toggles (sel : EnlargedSelection) (i : nat) :
  (sel <> Some i -> handleImageClick sel i = Some i)
  /\ (sel = Some i -> handleImageClick sel i = None)
  /\ (sel <> Some i -> handleImageClick (handleImageClick sel i) i = None)
  /\ (forall j, sel = Some j -> j <> i -> handleImageClick sel i = Some i).
Proof.
  assert (Hother : sel <> Some i -> handleImageClick sel i = Some i).
  { intros Hne. destruct sel as [j|]; simpl; [|reflexivity].
    destruct (Nat.eqb_spec j i) as [->|_]; [contradiction|reflexivity]. }
  split; [exact Hother|]. split; [|split].
  - intros ->. simpl. now rewrite Nat.eqb_refl.
  - intros Hne. rewrite (Hother Hne). simpl. now rewrite Nat.eqb_refl.
  - intros j -> Hne. apply Hother. congruence.
Qed.

Lemma handleImageClick_toggles_witness :
  handleImageClick None 0 = Some 0
  /\ handleImageClick (Some 0) 0 = None
  /\ handleImageClick (handleImageClick None 0) 0 = None
  /\ handleImageClick (Some 1) 0 = Some 0.
Proof.
  destruct (handleImageClick_toggles None 0) as (H1 & _ & H3 & _).
  destruct (handleImageClick_toggles (Some 0) 0) as (_ & H2 & _ & _).
  destruct (handleImageClick_toggles (Some 1) 0) as (_ & _ & _ & H4).
  split; [apply H1; discriminate|].
  split; [apply H2; reflexivity|].
  split; [apply H3; discriminate|].
  apply (H4 1); [reflexivity|discriminate].
Defined.

(** C6, as the code has it.  For a suffix [X] with no white space at
    either end, "SquareImage X" is displayed as [X]; and when [X] does not
    itself start with "squareimage" (in any letter case), so are
    "Square image. X", "Square image X", "square image, X",
    "SQUARE IMAGE: X" and "Square  image   X". *)
Theorem computeDisplayDescription_variants (X : string) :
  Js.trim X = X ->
  computeDisplayDescription ("SquareImage " ++ X) = X
  /\ (match_literal_i "squareimage" X = None ->
      computeDisplayDescription ("Square image. " ++ X) = X
      /\ computeDisplayDescription ("Square image " ++ X) = X
      /\ computeDisplayDescription ("square image, " ++ X) = X
      /\ computeDisplayDescription ("SQUARE IMAGE: " ++ X) = X
      /\ computeDisplayDescription ("Square  image   " ++ X) = X).
Proof.
  intros Htrim. split.
  - unfold computeDisplayDescription. cbn.
    now rewrite (trim_fixed_start X Htrim).
  - intros Hnone.
    repeat split; unfold computeDisplayDescription; cbn;
      now apply caption_after_marker.
Qed.

Lemma computeDisplayDescription_variants_witness :
  computeDisplayDescription "SquareImage Attorney objecting"
  = "Attorney objecting"
  /\ computeDisplayDescription "Square image. Attorney objecting"
     = "Attorney objecting".
Proof.
  destruct (computeDisplayDescription_variants "Attorney objecting" eq_refl)
    as (H5 & Hrest).
  destruct (Hrest eq_refl) as (H1 & _).
  split; [exact H5 | exact H1].
Defined.

(** C6, as stated, fails: a suffix that ends with white space loses it, and
    a suffix that starts with "SquareImage" loses that as well. *)
Lemma computeDisplayDescription_variants_fail :
  computeDisplayDescription ("Square image. " ++ "X ") <> "X "
  /\ computeDisplayDescription ("Square image. " ++ "SquareImage X")
     <> "SquareImage X".
Proof. split; intros H; vm_compute in H; discriminate H. Qed.

(** C7, as the code has it.  When the displayed text of [s] does not start
    with the marker phrase, displaying it again changes nothing. *)
Theorem computeDisplayDescription_idempotent (s : string) :
  leading_marker (computeDisplayDescription s) = false ->
  computeDisplayDescription (computeDisplayDescription s)
  = computeDisplayDescription s.
Proof.
  intros Hfree. unfold leading_marker in Hfree.
  remember (computeDisplayDescription s) as t eqn:Ht.
  destruct (match_square_image t) eqn:E1; [discriminate|].
  destruct (match_squareimage t) eqn:E2; [discriminate|].
  unfold computeDisplayDescription at 1, replace_prefix.
  rewrite E1, E2. rewrite Ht. unfold computeDisplayDescription.
  apply trim_idempotent.
Qed.

Lemma computeDisplayDescription_idempotent_witness :
  computeDisplayDescription
    (computeDisplayDescription "Square image. Attorney objecting")
  = computeDisplayDescription "Square image. Attorney objecting".
Proof.
  apply (computeDisplayDescription_idempotent
           "Square image. Attorney objecting").
  reflexivity.
Defined.

(** C7, as stated, fails: a description that carries the marker twice is
    stripped once by each application. *)
Lemma computeDisplayDescription_not_idempotent :
  computeDisplayDescription
    (computeDisplayDescription "Square image. Square image. X")
  <> computeDisplayDescription "Square image. Square image. X".
Proof. intros H; vm_compute in H; discriminate H. Qed.

(** The condition is the exact one: a displayed text that still starts
    with the marker phrase is changed by a second application. *)
Lemma computeDisplayDescription_restrips (s : string) :
  leading_marker (computeDisplayDescription s) = true ->
  computeDisplayDescription (computeDisplayDescription s)
  <> computeDisplayDescription s.
Proof.
  intros Hmark Heq. apply computeDisplayDescription_shrinks in Hmark.
  rewrite Heq in Hmark. lia.
Qed.

Section FilenameFacts.

Import Js ImageDisplay.

Lemma all_chars_trimStart (p : ascii -> bool) (s : string) :
  all_chars p s = true -> all_chars p (trimStart s) = true.
Proof.
  induction s as [|c r IH]; simpl; auto.
  intros H. apply andb_prop in H as [Hc Hr].
  destruct (is_space c); simpl; auto. now rewrite Hc, Hr.
Qed.

Lemma all_chars_trimEnd (p : ascii -> bool) (s : string) :
  all_chars p s = true -> all_chars p (trimEnd s) = true.
Proof.
  induction s as [|c r IH]; auto.
  intros H. simpl in H. apply andb_prop in H as [Hc Hr].
  rewrite trimEnd_cons. specialize (IH Hr).
  destruct (trimEnd r) as [|c' r'].
  - destruct (is_space c); simpl; auto. now rewrite Hc.
  - simpl in *. now rewrite Hc, IH.
Qed.

Lemma all_chars_remove_special (s : string) :
  all_chars in_filename_class (remove_special s) = true.
Proof.
  induction s as [|c r IH]; simpl; auto.
  destruct (in_filename_class c) eqn:E; simpl; auto. now rewrite E, IH.
Qed.

(** A character of the class that is not white space is a letter, a
    digit or a hyphen. *)
Lemma class_not_space (c : ascii) :
  in_filename_class c = true -> is_space c = false ->
  filename_body_char c = true.
Proof.
  unfold in_filename_class, filename_body_char. intros H Hs.
  rewrite Hs, orb_false_r in H. exact H.
Qed.

Lemma all_chars_hyphenate (s : string) :
  forall in_run,
    all_chars in_filename_class s = true ->
    all_chars filename_body_char (hyphenate_from in_run s) = true.
Proof.
  induction s as [|c r IH]; intros in_run H; simpl; auto.
  simpl in H. apply andb_prop in H as [Hc Hr].
  destruct (is_space c) eqn:Es.
  - destruct in_run; simpl; auto.
  - simpl. rewrite (class_not_space c Hc Es). simpl. auto.
Qed.

Lemma all_chars_substring (p : ascii -> bool) (s : string) :
  forall n m,
    all_chars p s = true -> all_chars p (String.substring n m s) = true.
Proof.
  induction s as [|c r IH]; intros n m H.
  - destruct n, m; reflexivity.
  - simpl in H. apply andb_prop in H as [Hc Hr].
    destruct n as [|n]; [destruct m as [|m]|]; simpl; auto.
    now rewrite Hc, (IH 0 m Hr).
Qed.

Lemma substring0_length (s : string) :
  forall m, String.length (String.substring 0 m s) = Nat.min m (String.length s).
Proof.
  induction s as [|c r IH]; intros [|m]; simpl; auto.
Qed.

(** [s.substring(0, n)] is the first [n] characters of [s], or all of
    [s] when it is shorter. *)
Lemma substring_prefix (s : string) (n : nat) :
  String.length (substring s 0 n) = Nat.min n (String.length s)
  /\ exists rest, s = substring s 0 n ++ rest.
Proof.
  unfold substring.
  replace (Nat.min 0 (String.length s)) with 0 by lia.
  rewrite Nat.min_0_l, Nat.max_0_l, Nat.sub_0_r.
  split.
  - rewrite substring0_length. lia.
  - generalize (Nat.min n (String.length s)) as m. clear n.
    induction s as [|c r IH]; intros [|m]; simpl.
    + now exists "".
    + now exists "".
    + now exists (String c r).
    + destruct (IH m) as [rest Hrest]. exists rest. now rewrite <- Hrest.
Qed.

Lemma cleanDescription_body (d : string) :
  String.length (cleanDescription d) <= 30
  /\ all_chars filename_body_char (cleanDescription d) = true.
Proof.
  unfold cleanDescription. split.
  - rewrite (proj1 (substring_prefix _ 30)). lia.
  - unfold substring. apply all_chars_substring.
    unfold hyphenate. apply all_chars_hyphenate.
    unfold trim. apply all_chars_trimEnd, all_chars_trimStart.
    apply all_chars_remove_special.
Qed.

(** A description with no character of the class, once lower-cased, has
    an empty cleaned form. *)
Lemma remove_special_none (s : string) :
  all_chars (fun c => negb (in_filename_class c)) s = true ->
  remove_special s = "".
Proof.
  induction s as [|c r IH]; simpl; auto.
  intros H. apply andb_prop in H as [Hc Hr].
  destruct (in_filename_class c); [discriminate|auto].
Qed.

Lemma truthy_non_empty (d : string) : d <> "" -> truthy d = true.
Proof. destruct d; [contradiction|reflexivity]. Qed.

End FilenameFacts.

(** *** The code against the wording of the specification *)

Section FilenameRefinement.

Import Js ImageDisplay.

Lemma is_space_white (c : ascii) : is_space c = FilenameSpec.is_white c.
Proof. destruct c as [[] [] [] [] [] [] [] []]; vm_compute; reflexivity. Qed.

(** Lower-casing and stripping, one character at a time. *)
Lemma lower_strip_char (c : ascii) :
  (if in_filename_class (lower_char c) then [lower_char c] else [])
  = filter (fun x => FilenameSpec.member x FilenameSpec.allowed)
      [FilenameSpec.lower_of (FilenameSpec.chars FilenameSpec.capitals)
         (FilenameSpec.chars FilenameSpec.letters) c].
Proof. destruct c as [[] [] [] [] [] [] [] []]; vm_compute; reflexivity. Qed.

Lemma chars_lower_strip (s : string) :
  FilenameSpec.chars (remove_special (toLowerCase s))
  = FilenameSpec.strip (FilenameSpec.lower_case (FilenameSpec.chars s)).
Proof.
  unfold FilenameSpec.strip, FilenameSpec.lower_case, FilenameSpec.chars.
  induction s as [|c r IH]; [reflexivity|].
  assert (Hcons : forall (p : ascii -> bool) x l,
             filter p (x :: l) = (filter p [x] ++ filter p l)%list).
  { intros p x l. simpl. destruct (p x); reflexivity. }
  cbn [toLowerCase remove_special list_ascii_of_string map].
  rewrite Hcons, <- lower_strip_char, <- IH.
  destruct (in_filename_class (lower_char c)); reflexivity.
Qed.

Lemma chars_trimStart (s : string) :
  FilenameSpec.chars (trimStart s)
  = FilenameSpec.drop_white (FilenameSpec.chars s).
Proof.
  induction s as [|c r IH]; [reflexivity|].
  simpl. rewrite <- is_space_white.
  destruct (is_space c); [exact IH|reflexivity].
Qed.

Lemma drop_white_app (a b : list ascii) :
  FilenameSpec.drop_white (a ++ b)
  = match FilenameSpec.drop_white a with
    | [] => FilenameSpec.drop_white b
    | kept => (kept ++ b)%list
    end.
Proof.
  induction a as [|x a IH]; [reflexivity|].
  simpl. destruct (FilenameSpec.is_white x); [exact IH|reflexivity].
Qed.

Lemma chars_trimEnd (s : string) :
  FilenameSpec.chars (trimEnd s)
  = rev (FilenameSpec.drop_white (rev (FilenameSpec.chars s))).
Proof.
  induction s as [|c r IH]; [reflexivity|].
  rewrite trimEnd_cons.
  change (FilenameSpec.chars (String c r)) with (c :: FilenameSpec.chars r).
  cbn [rev]. rewrite drop_white_app, is_space_white.
  destruct (FilenameSpec.drop_white (rev (FilenameSpec.chars r)))
    as [|x kept] eqn:E.
  - destruct (trimEnd r); [|discriminate IH].
    simpl. destruct (FilenameSpec.is_white c); reflexivity.
  - rewrite rev_app_distr. change (rev [c] ++ rev (x :: kept))%list
      with (c :: rev (x :: kept)). rewrite <- IH.
    destruct (trimEnd r) as [|c' r'] eqn:Er; [|reflexivity].
    exfalso. simpl in IH. symmetry in IH.
    apply (f_equal (@List.length ascii)) in IH.
    rewrite length_app in IH. simpl in IH. lia.
Qed.

Lemma chars_trim (s : string) :
  FilenameSpec.chars (trim s) = FilenameSpec.trim (FilenameSpec.chars s).
Proof.
  unfold trim, FilenameSpec.trim. now rewrite chars_trimEnd, chars_trimStart.
Qed.

(** The hyphen written at the start of a run by the code is the one the
    wording writes at its end. *)
Lemma chars_hyphenate_from (s : string) :
  FilenameSpec.chars (hyphenate_from false s)
  = FilenameSpec.collapse (FilenameSpec.chars s)
  /\ match s with
     | String c _ =>
         if is_space c
         then "-"%char :: FilenameSpec.chars (hyphenate_from true s)
              = FilenameSpec.collapse (FilenameSpec.chars s)
         else FilenameSpec.chars (hyphenate_from true s)
              = FilenameSpec.collapse (FilenameSpec.chars s)
     | EmptyString => True
     end.
Proof.
  induction s as [|c r [IHf IHt]]; [split; reflexivity|].
  change (FilenameSpec.chars (String c r)) with (c :: FilenameSpec.chars r).
  cbn [hyphenate_from FilenameSpec.collapse].
  rewrite <- is_space_white.
  destruct (is_space c) eqn:Ec.
  - destruct r as [|c' r'].
    + split; reflexivity.
    + change (FilenameSpec.chars (String c' r'))
        with (c' :: FilenameSpec.chars r') in *.
      cbv iota. rewrite <- is_space_white.
      destruct (is_space c') eqn:Ec'.
      * split; exact IHt.
      * change (FilenameSpec.chars (String "-" ?x))
          with ("-"%char :: FilenameSpec.chars x).
        rewrite IHt. split; reflexivity.
  - change (FilenameSpec.chars (String c ?x))
      with (c :: FilenameSpec.chars x).
    rewrite IHf. split; reflexivity.
Qed.

Lemma chars_substring0 (s : string) :
  forall n,
    FilenameSpec.chars (String.substring 0 n s)
    = firstn n (FilenameSpec.chars s).
Proof.
  induction s as [|c r IH]; intros [|n]; try reflexivity.
  simpl. f_equal. apply IH.
Qed.

Lemma chars_substring (s : string) (n : nat) :
  FilenameSpec.chars (substring s 0 n) = firstn n (FilenameSpec.chars s).
Proof.
  unfold substring.
  replace (Nat.min 0 (String.length s)) with 0 by lia.
  rewrite Nat.min_0_l, Nat.max_0_l, Nat.sub_0_r, chars_substring0.
  assert (Hlen : String.length s = List.length (FilenameSpec.chars s)).
  { clear n. induction s as [|c r IH]; simpl; congruence. }
  rewrite Hlen. destruct (Nat.le_ge_cases n (List.length (FilenameSpec.chars s))).
  - now rewrite Nat.min_l.
  - rewrite Nat.min_r by assumption.
    now rewrite firstn_all, firstn_all2.
Qed.

(** The chain of [handleDownload] computes the body the specification
    describes. *)
Lemma cleanDescription_body_spec (d : string) :
  cleanDescription d = FilenameSpec.body d.
Proof.
  unfold cleanDescription, FilenameSpec.body, hyphenate.
  rewrite <- chars_lower_strip, <- chars_trim.
  rewrite <- (proj1 (chars_hyphenate_from _)), <- chars_substring.
  unfold FilenameSpec.chars. now rewrite string_of_list_ascii_of_string.
Qed.

(** *** The number in the fallback name *)

Lemma value_string_of_uint (d : Decimal.uint) :
  forall acc,
    FilenameSpec.value acc (FilenameSpec.chars (NilEmpty.string_of_uint d))
    = Some (Nat.of_uint_acc d acc).
Proof.
  induction d; intros acc;
    cbn [NilEmpty.string_of_uint Nat.of_uint_acc];
    [reflexivity|..];
    change (FilenameSpec.chars (String ?c ?r)) with (c :: FilenameSpec.chars r);
    cbn [FilenameSpec.value]; rewrite Nat.tail_mul_spec;
    match goal with
    | |- context [FilenameSpec.position ?c ?l] =>
        let v := eval vm_compute in (FilenameSpec.position c l) in
        change (FilenameSpec.position c l) with v
    end;
    cbv iota; rewrite IHd; do 2 f_equal; lia.
Qed.

Lemma string_of_nat_numeral (n : nat) :
  0 < n -> FilenameSpec.numeral_of n (string_of_nat n).
Proof.
  intros Hpos. unfold FilenameSpec.numeral_of, string_of_nat. split.
  - rewrite value_string_of_uint.
    change (Nat.of_uint_acc (Nat.to_uint n) 0) with (Nat.of_uint (Nat.to_uint n)).
    now rewrite DecimalNat.Unsigned.of_to.
  - pose proof (DecimalNat.Unsigned.to_of (Nat.to_uint n)) as Hnorm.
    rewrite DecimalNat.Unsigned.of_to in Hnorm.
    pose proof (DecimalNat.Unsigned.of_to n) as Hval.
    destruct (Nat.to_uint n) as [|u|u|u|u|u|u|u|u|u|u] eqn:E;
      cbn [NilEmpty.string_of_uint]; try discriminate.
    intros _. unfold Decimal.unorm in Hnorm.
    pose proof (DecimalFacts.nzhead_nonzero (Decimal.D0 u)) as Hnz.
    destruct (Decimal.nzhead (Decimal.D0 u)) as [|v|v|v|v|v|v|v|v|v|v] eqn:Ez;
      try discriminate Hnorm.
    + injection Hnorm as ->. compute in Hval. lia.
    + now apply (Hnz v).
Qed.

End FilenameRefinement.

(** C5.  With a description, the file name is "law-meme", a hyphen, and
    the body the specification describes: the description lower-cased,
    without the characters outside [[a-z0-9\s-]], trimmed, with each run
    of white space turned into one hyphen, cut to its first 30 characters;
    then ".png".  Without a description the name is "law-meme-", the
    decimal writing of [index + 1], ".png".  The examples of the
    specification come out as stated; so do a description with white space
    at both ends, runs of mixed white space, digits and hyphens, and a
    position past the first. *)
Theorem computeDownloadFilename_spec :
  (forall (index : nat) (d : string), d <> "" ->
     computeDownloadFilename index (Some d)
     = "law-meme" ++ "-" ++ FilenameSpec.body d ++ ".png"
     /\ String.length (FilenameSpec.body d) <= 30)
  /\ (forall index : nat,
        exists numeral,
          computeDownloadFilename index None
          = "law-meme-" ++ numeral ++ ".png"
          /\ FilenameSpec.numeral_of (index + 1) numeral)
  /\ computeDownloadFilename 0
       (Some "A judge hammering a gavel with 'Motion Denied' text")
     = "law-meme-" ++ "a-judge-hammering-a-gavel-with" ++ ".png"
  /\ computeDownloadFilename 0 None = "law-meme-1.png"
  /\ computeDownloadFilename 2
       (Some ("  Section 53-A:"
              ++ String "009" (String "010" " Judge's  2nd   RULING!  ")))
     = "law-meme-section-53-a-judges-2nd-ruling.png"
  /\ computeDownloadFilename 41 None = "law-meme-42.png".
Proof.
  split; [|split; [|repeat split; vm_compute; reflexivity]].
  - intros index d Hd.
    rewrite <- cleanDescription_body_spec.
    split; [|exact (proj1 (cleanDescription_body d))].
    unfold computeDownloadFilename. rewrite (truthy_non_empty d Hd).
    reflexivity.
  - intros index. exists (Js.string_of_nat (index + 1)). split.
    + reflexivity.
    + apply string_of_nat_numeral. lia.
Qed.

Lemma computeDownloadFilename_spec_witness :
  computeDownloadFilename 1
    (Some ("  Lawyer (no. 2)  drowning" ++ String "009"
           (String "010" "in  paper-work with 'Discovery Phase' caption ")))
  = "law-meme-lawyer-no-2-drowning-in-paper-.png".
Proof.
  destruct computeDownloadFilename_spec as (Hpresent & _).
  destruct (Hpresent 1
              ("  Lawyer (no. 2)  drowning" ++ String "009"
               (String "010" "in  paper-work with 'Discovery Phase' caption ")))
    as (Hname & _).
  - discriminate.
  - rewrite Hname. vm_compute. reflexivity.
Defined.

(** C10.  A non-empty description whose cleaned form is empty (as when no
    character of it, lower-cased, is in [[a-z0-9\s-]]) gives
    "law-meme-.png" for every index.  The name "law-meme-<index+1>.png" is
    produced by the branch of the absent description and of the empty
    string only: any other description gives "law-meme-", its cleaned
    form, ".png". *)
Theorem computeDownloadFilename_empty_body (index : nat) :
  (forall d : string, d <> "" -> cleanDescription d = "" ->
     computeDownloadFilename index (Some d) = "law-meme-.png")
  /\ (forall d : string, d <> "" ->
        all_chars (fun c => negb (in_filename_class c)) (Js.toLowerCase d) = true ->
        computeDownloadFilename index (Some d) = "law-meme-.png")
  /\ computeDownloadFilename index (Some "!!!") = "law-meme-.png"
  /\ computeDownloadFilename index None
     = "law-meme-" ++ Js.string_of_nat (index + 1) ++ ".png"
  /\ computeDownloadFilename index (Some "")
     = "law-meme-" ++ Js.string_of_nat (index + 1) ++ ".png"
  /\ (forall d : string, d <> "" ->
        computeDownloadFilename index (Some d)
        = "law-meme-" ++ cleanDescription d ++ ".png").
Proof.
  assert (Hpresent : forall d : string, d <> "" ->
            computeDownloadFilename index (Some d)
            = "law-meme-" ++ cleanDescription d ++ ".png").
  { intros d Hd. unfold computeDownloadFilename.
    rewrite (truthy_non_empty d Hd). reflexivity. }
  assert (Hempty : forall d : string, d <> "" -> cleanDescription d = "" ->
            computeDownloadFilename index (Some d) = "law-meme-.png").
  { intros d Hd Hclean. now rewrite (Hpresent d Hd), Hclean. }
  split; [exact Hempty|]. split; [|split; [|split; [|split]]].
  - intros d Hd Hnone. apply Hempty; auto.
    unfold cleanDescription. now rewrite (remove_special_none _ Hnone).
  - apply Hempty; [discriminate|reflexivity].
  - unfold computeDownloadFilename. reflexivity.
  - unfold computeDownloadFilename. simpl Js.truthy. cbv iota.
    reflexivity.
  - exact Hpresent.
Qed.

Lemma computeDownloadFilename_empty_body_witness :
  computeDownloadFilename 3 (Some "?!(...)") = "law-meme-.png"
  /\ computeDownloadFilename 3 (Some "   ") = "law-meme-.png".
Proof.
  destruct (computeDownloadFilename_empty_body 3) as (Hclean & Hnone & _).
  split.
  - apply Hnone; [discriminate|reflexivity].
  - apply Hclean; [discriminate|reflexivity].
Defined.

(* ================================================================== *)
(** ** The description client *)
(* ================================================================== *)

Section ClientFacts.

Import Js Api.

Lemma split_lf_not_nil (s : string) : split_lf s <> [].
Proof.
  destruct s as [|c r]; simpl; [discriminate|].
  destruct (Ascii.eqb c "010"); [discriminate|].
  destruct (split_lf r); discriminate.
Qed.

(** The pieces of [split_lf], joined by line feeds, are the text. *)
Lemma concat_split_lf (s : string) : String.concat LF (split_lf s) = s.
Proof.
  induction s as [|c r IH]; [reflexivity|].
  simpl split_lf. pose proof (split_lf_not_nil r) as Hne.
  destruct (Ascii.eqb_spec c "010") as [->|_].
  - destruct (split_lf r) as [|l ls] eqn:E; [contradiction|].
    change (String.concat LF ("" :: l :: ls))
      with ("" ++ LF ++ String.concat LF (l :: ls)).
    now rewrite IH.
  - destruct (split_lf r) as [|l ls] eqn:E; [contradiction|].
    destruct ls as [|l' ls'].
    + simpl in *. now rewrite IH.
    + change (String.concat LF (String c l :: l' :: ls'))
        with (String c (l ++ LF ++ String.concat LF (l' :: ls'))).
      change (String.concat LF (l :: l' :: ls'))
        with (l ++ LF ++ String.concat LF (l' :: ls')) in IH.
      now rewrite IH.
Qed.

(** No piece of [split_lf] holds a line feed. *)
Lemma split_lf_pieces (s : string) :
  Forall (fun line =>
            ImageDisplay.all_chars (fun c => negb (Ascii.eqb c "010")) line
            = true)
    (split_lf s).
Proof.
  induction s as [|c r IH]; simpl.
  - repeat constructor.
  - destruct (Ascii.eqb c "010") eqn:E.
    + constructor; auto.
    + destruct (split_lf r) as [|l ls].
      * repeat constructor. simpl. now rewrite E.
      * inversion IH as [|? ? Hl Hls]; subst.
        constructor; auto. simpl. now rewrite E, Hl.
Qed.

Lemma firstn_In {A} (n : nat) :
  forall (l : list A) (x : A), In x (firstn n l) -> In x l.
Proof.
  induction n as [|n IH]; intros [|y l] x H; simpl in *;
    try contradiction.
  destruct H as [H|H]; [now left | right; now apply IH].
Qed.

Variable axios_post : PostRequest -> Settled GeminiResponse.

Lemma generateMemeDescriptions_cases (apiKey : option string) (prompt : string) :
  generateMemeDescriptions axios_post apiKey prompt = []
  \/ exists t,
       generateMemeDescriptions axios_post apiKey prompt
       = firstn 4 (filter non_blank (split_lf t)).
Proof.
  unfold generateMemeDescriptions, generateMemeDescriptions_try, slice0.
  destruct apiKey as [k|]; [|now left].
  destruct (truthy k); [|now left]. cbn [negb].
  destruct (axios_post (description_request k prompt)) as [candidates|];
    [|now left].
  destruct (nth_error candidates 0) as [candidate|]; [|now left].
  destruct (find has_text (parts candidate)) as [textPart|]; [|now left].
  destruct (text textPart) as [t|]; [|now left].
  destruct (truthy t); [|now left].
  right. now exists t.
Qed.

End ClientFacts.

(** C9.  The description client never raises: its result is always a list,
    of at most 4 lines, none of them blank.  When the response has a part
    with text, the result is the non-blank lines of the first such part, in
    order, cut to the first 4; when no part has text, and when the post is
    rejected, the result is the empty list. *)
Theorem generateMemeDescriptions_lines
    (axios_post : Api.PostRequest -> Settled Api.GeminiResponse)
    (apiKey : option string) (prompt : string) :
  let result := Api.generateMemeDescriptions axios_post apiKey prompt in
  List.length result <= 4
  /\ (forall line, In line result -> Js.trim line <> "")
  /\ (forall k, apiKey = Some k ->
      let outcome := axios_post (Api.description_request k prompt) in
      (outcome = Rejected -> result = [])
      /\ (forall candidate others,
            outcome = Fulfilled (candidate :: others) ->
            find Api.has_text (Api.parts candidate) = None -> result = [])
      /\ (forall candidate others textPart t,
            k <> "" ->
            outcome = Fulfilled (candidate :: others) ->
            find Api.has_text (Api.parts candidate) = Some textPart ->
            Api.text textPart = Some t ->
            result = firstn 4 (filter Api.non_blank (Js.split_lf t)))).
Proof.
  intros result.
  split; [|split].
  - subst result.
    destruct (generateMemeDescriptions_cases axios_post apiKey prompt)
      as [->|[t ->]]; [simpl; lia|].
    rewrite length_firstn. lia.
  - subst result. intros line Hin.
    destruct (generateMemeDescriptions_cases axios_post apiKey prompt)
      as [E|[t E]]; rewrite E in Hin; [contradiction|].
    apply firstn_In in Hin. apply filter_In in Hin as [_ Hnb].
    unfold Api.non_blank in Hnb. intros Hblank. rewrite Hblank in Hnb.
    discriminate Hnb.
  - intros k -> outcome. subst result outcome.
    unfold Api.generateMemeDescriptions, Api.generateMemeDescriptions_try.
    split; [|split].
    + intros Hpost. rewrite Hpost. now destruct (Js.truthy k).
    + intros candidate others Hpost Hfind.
      rewrite Hpost. cbn [nth_error]. rewrite Hfind.
      now destruct (Js.truthy k).
    + intros candidate others textPart t Hk Hpost Hfind Htext.
      rewrite (truthy_non_empty k Hk), Hpost. cbn [negb nth_error].
      rewrite Hfind, Htext.
      apply find_some in Hfind as [_ Hhas]. unfold Api.has_text in Hhas.
      rewrite Htext in Hhas. rewrite Hhas. reflexivity.
Qed.

Lemma generateMemeDescriptions_lines_witness :
  let response :=
    [ {| Api.parts :=
           [ {| Api.text :=
                  Some ("Meme description 1" ++ Api.LF ++ "  " ++ Api.LF
                        ++ "Meme description 2" ++ Api.LF
                        ++ "Meme description 3" ++ Api.LF
                        ++ "Meme description 4" ++ Api.LF
                        ++ "Meme description 5");
                Api.inlineData := None |} ] |} ] in
  Api.generateMemeDescriptions (fun _ => Fulfilled response)
    (Some "test-api-key") "test topic"
  = ["Meme description 1"; "Meme description 2"; "Meme description 3";
     "Meme description 4"]
  /\ Api.generateMemeDescriptions (fun _ => Rejected)
       (Some "test-api-key") "test topic" = [].
Proof.
  intros response. split.
  - destruct (generateMemeDescriptions_lines (fun _ => Fulfilled response)
                (Some "test-api-key") "test topic") as (_ & _ & Hkey).
    destruct (Hkey "test-api-key" eq_refl) as (_ & _ & Htext).
    rewrite (Htext _ _ _ _ ltac:(discriminate) eq_refl eq_refl eq_refl).
    reflexivity.
  - destruct (generateMemeDescriptions_lines (fun _ => Rejected)
                (Some "test-api-key") "test topic") as (_ & _ & Hkey).
    destruct (Hkey "test-api-key" eq_refl) as (Hrej & _).
    apply Hrej. reflexivity.
Defined.

(* ================================================================== *)
(** ** Properties of the orchestrator *)
(* ================================================================== *)

Section ListFacts.

Import App.

Lemma filter_index_mask (ds : list string) :
  forall (before g : list string),
    List.length g = List.length ds ->
    filter_index (image_present (before ++ g)) (List.length before) ds
    = mask_by_image g ds.
Proof.
  unfold mask_by_image.
  induction ds as [|d ds IH]; intros before g Hlen.
  - destruct g; reflexivity.
  - destruct g as [|x g]; [discriminate|].
    injection Hlen as Hlen.
    assert (Hnth : nth_error (before ++ x :: g) (List.length before) = Some x).
    { rewrite nth_error_app2 by lia. now rewrite Nat.sub_diag. }
    specialize (IH (before ++ [x])%list g Hlen).
    rewrite <- app_assoc, length_app, Nat.add_1_r in IH. simpl in IH.
    simpl. unfold image_present at 1. rewrite Hnth.
    destruct (String.eqb x ""); simpl; now rewrite IH.
Qed.

Lemma mask_length (g ds : list string) :
  List.length g = List.length ds ->
  List.length (filter non_empty g) = List.length (mask_by_image g ds).
Proof.
  unfold mask_by_image, non_empty. revert ds.
  induction g as [|x g IH]; intros [|d ds] Hlen; try discriminate; auto.
  injection Hlen as Hlen. simpl.
  destruct (String.eqb x ""); simpl; auto.
Qed.

Lemma filter_non_empty_all (g : list string) :
  (forall img, In img g -> img <> "") -> filter non_empty g = g.
Proof.
  induction g as [|x g IH]; intros Hall; simpl; auto.
  unfold non_empty at 1.
  destruct (String.eqb_spec x "") as [E|_].
  - exfalso. apply (Hall x); simpl; auto.
  - simpl. f_equal. apply IH. intros img Hin. apply Hall. now right.
Qed.

Lemma mask_all (g ds : list string) :
  List.length g = List.length ds ->
  (forall img, In img g -> img <> "") -> mask_by_image g ds = ds.
Proof.
  unfold mask_by_image. revert ds.
  induction g as [|x g IH]; intros [|d ds] Hlen Hall; try discriminate; auto.
  injection Hlen as Hlen. simpl.
  destruct (String.eqb_spec x "") as [E|_].
  - exfalso. apply (Hall x); simpl; auto.
  - simpl. f_equal. apply IH; auto. intros img Hin. apply Hall. now right.
Qed.

Lemma only_failure_tail (j : nat) (x : string) (g : list string) :
  only_failure (S j) (x :: g) -> x <> "" /\ only_failure j g.
Proof.
  intros [Hj Hk]. split.
  - apply (Hk 0 x); auto.
  - split; auto. intros k img Hne Hnth. apply (Hk (S k) img); auto.
Qed.

Lemma only_failure_head (x : string) (g : list string) :
  only_failure 0 (x :: g) -> x = "" /\ forall img, In img g -> img <> "".
Proof.
  intros [Hj Hk]. split.
  - simpl in Hj. congruence.
  - intros img Hin. apply In_nth_error in Hin as [k Hnth].
    apply (Hk (S k) img); auto.
Qed.

Lemma filter_only_failure (g : list string) :
  forall j, only_failure j g -> filter non_empty g = remove_nth j g.
Proof.
  unfold remove_nth.
  induction g as [|x g IH]; intros j Hone.
  - destruct Hone as [Hj _]. destruct j; discriminate.
  - destruct j as [|j].
    + apply only_failure_head in Hone as [-> Hall]. simpl.
      now apply filter_non_empty_all.
    + apply only_failure_tail in Hone as [Hx Hone]. simpl.
      unfold non_empty at 1.
      destruct (String.eqb_spec x "") as [E|_]; [contradiction|].
      simpl. f_equal. now apply IH.
Qed.

Lemma mask_only_failure (g : list string) :
  forall j ds,
    List.length g = List.length ds -> only_failure j g ->
    mask_by_image g ds = remove_nth j ds.
Proof.
  unfold remove_nth.
  induction g as [|x g IH]; intros j [|d ds] Hlen Hone; try discriminate.
  - destruct Hone as [Hj _]. destruct j; discriminate.
  - injection Hlen as Hlen. destruct j as [|j].
    + apply only_failure_head in Hone as [-> Hall].
      unfold mask_by_image. simpl. now apply mask_all.
    + apply only_failure_tail in Hone as [Hx Hone].
      unfold mask_by_image. simpl.
      destruct (String.eqb_spec x "") as [E|_]; [contradiction|].
      simpl. f_equal. now apply IH.
Qed.

End ListFacts.

Section HandlerFacts.

Import App.

Variable env : Env.

Lemma bind_normal {A B} (m : M A) (k : A -> M B) (w w' : World) (a : A) :
  m w = (Normal a, w') -> bind m k w = k a w'.
Proof. intros H. unfold bind. now rewrite H. Qed.

Lemma bind_thrown {A B} (m : M A) (k : A -> M B) (w w' : World) :
  m w = (Thrown, w') -> bind m k w = (Thrown, w').
Proof. intros H. unfold bind. now rewrite H. Qed.

Ltac project :=
  cbn [state trace text isLoading showResults images error loadingProgress
       descriptions fst snd].

Lemma call_images_run (ds : list string) :
  forall index w,
    call_images env index ds w =
    (Normal (image_promises env index ds),
     {| state := state w;
        trace := (trace w ++ call_events index ds)%list |}).
Proof.
  induction ds as [|d ds IH]; intros index w.
  - simpl. unfold ret. rewrite app_nil_r. now destruct w.
  - simpl. unfold bind at 1, emit. simpl.
    unfold bind. rewrite IH. simpl. unfold ret.
    now rewrite <- app_assoc.
Qed.

Lemma await_images_run (promises : list (Settled string)) :
  forall total i acc w,
  exists q,
    await_images total i promises acc w =
    (Normal (acc ++ map placeholder_or promises)%list,
     {| state := with_progress q (state w);
        trace := (trace w ++ map AwaitImage (seq i (List.length promises)))%list |}).
Proof.
  induction promises as [|p ps IH]; intros total i acc w.
  - exists (loadingProgress (state w)). simpl. unfold ret.
    rewrite !app_nil_r. destruct w as [[] ?]; reflexivity.
  - simpl. destruct p as [imageData|].
    + unfold bind at 1, try_catch, await, bind, emit, ret,
        setLoadingProgress, modify. simpl.
      match goal with
      | |- context [await_images total (S i) ps ?a ?w'] =>
          destruct (IH total (S i) a w') as [q Hq]; rewrite Hq
      end.
      exists q. simpl. unfold with_progress. simpl.
      now rewrite <- !app_assoc.
    + unfold bind at 1, try_catch, await, bind, emit, ret, throw. simpl.
      match goal with
      | |- context [await_images total (S i) ps ?a ?w'] =>
          destruct (IH total (S i) a w') as [q Hq]; rewrite Hq
      end.
      exists q. simpl. now rewrite <- !app_assoc.
Qed.

Lemma image_promises_length (ds : list string) :
  forall index, List.length (image_promises env index ds) = List.length ds.
Proof. induction ds; intros; simpl; auto. Qed.

Lemma generated_length (ds : list string) :
  List.length (generated env ds) = List.length ds.
Proof. unfold generated. now rewrite length_map, image_promises_length. Qed.

(** The [try] block when the description call gives no description. *)
Lemma try_block_throws (topic : string) (w : World) :
  generateMemeDescriptions env topic = Rejected
  \/ generateMemeDescriptions env topic = Fulfilled [] ->
  try_block env topic w =
  (Thrown,
   {| state := state w;
      trace := (trace w ++ [CallDescriptions topic; AwaitDescriptions])%list |}).
Proof.
  intros Hdesc. unfold try_block.
  destruct Hdesc as [Hdesc|Hdesc].
  - apply bind_thrown.
    unfold bind, emit, await, bind, emit, throw. rewrite Hdesc.
    project. now rewrite <- app_assoc.
  - erewrite bind_normal.
    2:{ unfold bind, emit, await, bind, emit, ret. rewrite Hdesc.
        project. reflexivity. }
    apply bind_thrown. cbn [List.length Nat.eqb]. unfold throw.
    now rewrite <- app_assoc.
Qed.

(** The [try] block when the description call gives descriptions. *)
Lemma try_block_publishes (topic d : string) (ds : list string) (w : World) :
  generateMemeDescriptions env topic = Fulfilled (d :: ds) ->
  try_block env topic w =
  (Normal tt,
   {| state :=
        mkAppState (text (state w)) false true
          (filter non_empty (generated env (d :: ds))) (error (state w)) 100
          (mask_by_image (generated env (d :: ds)) (d :: ds));
      trace :=
        (trace w
         ++ [CallDescriptions topic; AwaitDescriptions]
         ++ call_events 0 (d :: ds)
         ++ await_events (List.length (d :: ds))
         ++ [SetTimeout 500; TimeoutCallback])%list |}).
Proof.
  intros Hdesc. unfold try_block.
  erewrite bind_normal.
  2:{ unfold bind, emit, await, bind, emit, ret. rewrite Hdesc.
      project. reflexivity. }
  erewrite bind_normal by (cbn [List.length Nat.eqb]; reflexivity).
  erewrite bind_normal by (unfold setDescriptions, modify; reflexivity).
  erewrite bind_normal by (unfold setLoadingProgress, modify; reflexivity).
  erewrite bind_normal by apply call_images_run.
  project.
  match goal with
  | |- bind (await_images ?t 0 ?ps []) _ ?w0 = _ =>
      destruct (await_images_run ps t 0 [] w0) as [q Hq]
  end.
  erewrite bind_normal by exact Hq.
  unfold with_progress. project.
  erewrite bind_normal by (unfold setLoadingProgress, modify; reflexivity).
  erewrite bind_normal by (unfold emit; reflexivity).
  erewrite bind_normal by (unfold emit; reflexivity).
  project. unfold publish.
  erewrite bind_normal by (unfold setImages, modify; reflexivity).
  erewrite bind_normal by (unfold setDescriptions, modify; reflexivity).
  erewrite bind_normal by (unfold setIsLoading, modify; reflexivity).
  unfold setShowResults, modify. project.
  rewrite image_promises_length. cbn [app].
  fold (generated env (d :: ds)). fold non_empty.
  pose proof (filter_index_mask (d :: ds) [] (generated env (d :: ds))
                (generated_length (d :: ds))) as Hmask.
  cbn [app List.length] in Hmask. rewrite Hmask.
  unfold await_events. rewrite <- !app_assoc. reflexivity.
Qed.

(** The entry effects of an accepted submission. *)
Lemma handleSubmit_accepted (s : AppState) :
  accepted env s ->
  handleSubmit env {| state := s; trace := [] |} =
  try_catch (try_block env (text s)) catch_block
    {| state := mkAppState (text s) true false [] None 0 []; trace := [] |}.
Proof.
  intros (Htopic & Hload & Hkey).
  unfold handleSubmit. project. rewrite Htopic, Hload, Hkey.
  cbn [negb orb].
  erewrite bind_normal by (unfold setIsLoading, modify; reflexivity).
  erewrite bind_normal by (unfold setLoadingProgress, modify; reflexivity).
  erewrite bind_normal by (unfold setError, modify; reflexivity).
  erewrite bind_normal by (unfold setImages, modify; reflexivity).
  erewrite bind_normal by (unfold setDescriptions, modify; reflexivity).
  erewrite bind_normal by (unfold setShowResults, modify; reflexivity).
  reflexivity.
Qed.

(** A submission that passes the guard and gets no description. *)
Lemma submit_aborts (s : AppState) :
  accepted env s ->
  generateMemeDescriptions env (text s) = Rejected
  \/ generateMemeDescriptions env (text s) = Fulfilled [] ->
  submit env s =
  {| state := mkAppState (text s) false false [] (Some failure_message) 0 [];
     trace := [CallDescriptions (text s); AwaitDescriptions] |}.
Proof.
  intros Hacc Hdesc. unfold submit.
  rewrite (handleSubmit_accepted s Hacc).
  unfold try_catch. rewrite (try_block_throws _ _ Hdesc). reflexivity.
Qed.

(** A submission that passes the guard and gets descriptions. *)
Lemma submit_publishes (s : AppState) (d : string) (ds : list string) :
  accepted env s ->
  generateMemeDescriptions env (text s) = Fulfilled (d :: ds) ->
  submit env s =
  {| state :=
       mkAppState (text s) false true
         (filter non_empty (generated env (d :: ds))) None 100
         (mask_by_image (generated env (d :: ds)) (d :: ds));
     trace :=
       ([CallDescriptions (text s); AwaitDescriptions]
        ++ call_events 0 (d :: ds)
        ++ await_events (List.length (d :: ds))
        ++ [SetTimeout 500; TimeoutCallback])%list |}.
Proof.
  intros Hacc Hdesc. unfold submit.
  rewrite (handleSubmit_accepted s Hacc).
  unfold try_catch. rewrite (try_block_publishes _ _ _ _ Hdesc). reflexivity.
Qed.

End HandlerFacts.

(* ================================================================== *)
(** ** The orchestrator: submission cycles *)
(* ================================================================== *)

Import App.

(** C4.  A submission whose topic trims to the empty string, and a
    submission made while a generation is loading, does nothing: no
    description request, no image request (the trace stays empty) and the
    state is the one it started from. *)
Theorem handleSubmit_guard_noop (env : Env) (s : AppState) :
  Js.trim (text s) = "" \/ isLoading s = true ->
  handleSubmit env {| state := s; trace := [] |}
  = (Normal tt, {| state := s; trace := [] |}).
Proof.
  intros Hguard. unfold handleSubmit.
  cbn [state trace].
  destruct Hguard as [H|H]; rewrite H.
  - reflexivity.
  - rewrite orb_true_r. reflexivity.
Qed.

Lemma handleSubmit_guard_noop_witness :
  let blank := idle "   " in
  let busy := mkAppState "contract law" true false [] None 12 [] in
  let env := mock_env (Fulfilled ["Description 1"]) [Fulfilled "mockBase64Data"] in
  handleSubmit env {| state := blank; trace := [] |}
  = (Normal tt, {| state := blank; trace := [] |})
  /\ handleSubmit env {| state := busy; trace := [] |}
     = (Normal tt, {| state := busy; trace := [] |}).
Proof.
  split.
  - apply handleSubmit_guard_noop. left. reflexivity.
  - apply handleSubmit_guard_noop. right. reflexivity.
Defined.

(** C3.  When the description call of an accepted submission rejects or
    gives no description, the cycle aborts: loading ends, the error is
    "Failed to generate images. Please try again.", no image call is made,
    and nothing is displayed. *)
Theorem handleSubmit_description_failure (env : Env) (s : AppState) :
  accepted env s ->
  generateMemeDescriptions env (text s) = Rejected
  \/ generateMemeDescriptions env (text s) = Fulfilled [] ->
  let w := submit env s in
  isLoading (state w) = false
  /\ error (state w) = Some "Failed to generate images. Please try again."
  /\ trace w = [CallDescriptions (text s); AwaitDescriptions]
  /\ (forall index description, ~ In (CallImage index description) (trace w))
  /\ images (state w) = [] /\ descriptions (state w) = []
  /\ showResults (state w) = false.
Proof.
  intros Hacc Hdesc w. subst w. rewrite (submit_aborts env s Hacc Hdesc).
  cbn [state trace isLoading error images descriptions showResults].
  repeat split; try reflexivity.
  intros index description [H|[H|[]]]; discriminate H.
Qed.

Lemma handleSubmit_description_failure_witness :
  let w := submit (mock_env Rejected []) (idle "contract law") in
  isLoading (state w) = false
  /\ error (state w) = Some "Failed to generate images. Please try again."
  /\ trace w = [CallDescriptions "contract law"; AwaitDescriptions]
  /\ (forall index description, ~ In (CallImage index description) (trace w))
  /\ images (state w) = [] /\ descriptions (state w) = []
  /\ showResults (state w) = false.
Proof.
  apply (handleSubmit_description_failure (mock_env Rejected [])
           (idle "contract law")).
  - repeat split; reflexivity.
  - left. reflexivity.
Defined.

(** The same through the client of [api.ts]: a transport failure of the
    description request is turned into zero descriptions, and aborts the
    cycle. *)
Corollary handleSubmit_transport_failure
    (k : string) (text_post : Api.PostRequest -> Settled Api.GeminiResponse)
    (image_post : nat -> Api.PostRequest -> Settled Api.GeminiResponse)
    (s : AppState) :
  let env := api_env (Some k) text_post image_post in
  accepted env s ->
  text_post (Api.description_request k (text s)) = Rejected ->
  submit env s =
  {| state := mkAppState (text s) false false [] (Some failure_message) 0 [];
     trace := [CallDescriptions (text s); AwaitDescriptions] |}.
Proof.
  intros env Hacc Hpost. apply submit_aborts; auto. right.
  cbn [env api_env generateMemeDescriptions].
  unfold Api.generateMemeDescriptions, Api.generateMemeDescriptions_try.
  rewrite Hpost. now destruct (Js.truthy k).
Qed.

(** C1.  In a cycle whose description call gives the descriptions [ds],
    the displayed images are the non-empty entries of the generated
    images, in order, and the displayed descriptions are those at the same
    positions; so both lists have the same length, no displayed image is
    empty, everything is shown when no image is empty, and when exactly one
    is, the other K-1 are shown in their order. *)
Theorem handleSubmit_display_set (env : Env) (s : AppState) (ds : list string) :
  accepted env s ->
  generateMemeDescriptions env (text s) = Fulfilled ds ->
  let g := generated env ds in
  let shown := state (submit env s) in
  images shown = filter non_empty g
  /\ descriptions shown = mask_by_image g ds
  /\ List.length (images shown) = List.length (descriptions shown)
  /\ (forall img, In img (images shown) -> img <> "")
  /\ ((forall img, In img g -> img <> "") ->
      images shown = g /\ descriptions shown = ds
      /\ List.length (images shown) = List.length ds)
  /\ (forall j, only_failure j g ->
      images shown = remove_nth j g /\ descriptions shown = remove_nth j ds
      /\ List.length (images shown) = List.length ds - 1)
  /\ (ds <> [] ->
      showResults shown = true /\ isLoading shown = false
      /\ error shown = None).
Proof.
  intros Hacc Hdesc g shown.
  assert (Hlen : List.length g = List.length ds) by apply generated_length.
  assert (Hpub : ds <> [] ->
                 showResults shown = true /\ isLoading shown = false
                 /\ error shown = None).
  { subst shown. destruct ds as [|d ds]; [contradiction|]. intros _.
    rewrite (submit_publishes env s d ds Hacc Hdesc). repeat split. }
  assert (Himg : images shown = filter non_empty g
                 /\ descriptions shown = mask_by_image g ds).
  { subst shown. destruct ds as [|d ds].
    - rewrite (submit_aborts env s Hacc (or_intror Hdesc)). split; reflexivity.
    - rewrite (submit_publishes env s d ds Hacc Hdesc). split; reflexivity. }
  destruct Himg as [Himg Hdes]. rewrite Himg, Hdes.
  split; [reflexivity|]. split; [reflexivity|].
  split; [now apply mask_length|].
  split.
  { intros img Hin. apply filter_In in Hin as [_ Hne].
    unfold non_empty in Hne. intros ->. discriminate Hne. }
  split.
  { intros Hall. rewrite (filter_non_empty_all g Hall), (mask_all g ds Hlen Hall).
    auto. }
  split; [|exact Hpub].
  intros j Hone.
  rewrite (filter_only_failure g j Hone), (mask_only_failure g j ds Hlen Hone).
  split; [reflexivity|]. split; [reflexivity|].
  destruct Hone as [Hj _].
  assert (Hlt : j < List.length g) by (apply nth_error_Some; congruence).
  unfold remove_nth. rewrite length_app, length_firstn, length_skipn. lia.
Qed.

Lemma handleSubmit_display_set_witness :
  let ds := ["Description 1"; "Description 2"; "Description 3"] in
  let env := mock_env (Fulfilled ds)
               [Fulfilled "img1"; Fulfilled ""; Fulfilled "img3"] in
  let shown := state (submit env (idle "contract law")) in
  images shown = ["img1"; "img3"]
  /\ descriptions shown = ["Description 1"; "Description 3"].
Proof.
  intros ds env shown.
  destruct (handleSubmit_display_set env (idle "contract law") ds)
    as (Himg & Hdes & _).
  - repeat split; reflexivity.
  - reflexivity.
  - split; [exact Himg | exact Hdes].
Defined.

(** C2, as the code has it.  The description call is awaited before any
    image call is made.  Then every image call is made, in description
    order, before the first of them is awaited; their results are awaited
    one after the other in the same order. *)
Theorem handleSubmit_call_order (env : Env) (s : AppState) :
  accepted env s ->
  trace (submit env s) =
  ([CallDescriptions (text s); AwaitDescriptions]
   ++ match generateMemeDescriptions env (text s) with
      | Fulfilled (d :: ds) =>
          call_events 0 (d :: ds)
          ++ await_events (List.length (d :: ds))
          ++ [SetTimeout 500; TimeoutCallback]
      | _ => []
      end)%list.
Proof.
  intros Hacc.
  destruct (generateMemeDescriptions env (text s)) as [[|d ds]|] eqn:Hdesc.
  - now rewrite (submit_aborts env s Hacc (or_intror Hdesc)).
  - now rewrite (submit_publishes env s d ds Hacc Hdesc).
  - now rewrite (submit_aborts env s Hacc (or_introl Hdesc)).
Qed.

Lemma handleSubmit_call_order_witness :
  trace (submit (mock_env (Fulfilled ["Description 1"; "Description 2"])
                   [Fulfilled "img1"; Fulfilled "img2"])
           (idle "contract law")) =
  [CallDescriptions "contract law"; AwaitDescriptions;
   CallImage 0 "Description 1"; CallImage 1 "Description 2";
   AwaitImage 0; AwaitImage 1; SetTimeout 500; TimeoutCallback].
Proof.
  apply (handleSubmit_call_order
           (mock_env (Fulfilled ["Description 1"; "Description 2"])
              [Fulfilled "img1"; Fulfilled "img2"])
           (idle "contract law")).
  repeat split; reflexivity.
Defined.

(** C2, as stated, fails: with two descriptions the second image call is
    made before the first has been awaited. *)
Lemma handleSubmit_calls_not_one_at_a_time :
  ~ one_at_a_time
      (trace (submit (mock_env (Fulfilled ["Description 1"; "Description 2"])
                        [Fulfilled "img1"; Fulfilled "img2"])
                (idle "contract law"))).
Proof.
  intros Hseq.
  specialize (Hseq [CallDescriptions "contract law"; AwaitDescriptions;
                    CallImage 0 "Description 1"]
                0 "Description 2"
                [AwaitImage 0; AwaitImage 1; SetTimeout 500; TimeoutCallback]
                eq_refl).
  destruct Hseq as [H|[H|[H|[]]]]; discriminate H.
Qed.

(** The overlap is there in every cycle with two descriptions or more. *)
Lemma handleSubmit_calls_overlap
    (env : Env) (s : AppState) (d0 d1 : string) (ds : list string) :
  accepted env s ->
  generateMemeDescriptions env (text s) = Fulfilled (d0 :: d1 :: ds) ->
  ~ one_at_a_time (trace (submit env s)).
Proof.
  intros Hacc Hdesc Hseq.
  rewrite (submit_publishes env s d0 (d1 :: ds) Hacc Hdesc) in Hseq.
  cbn [trace] in Hseq.
  specialize (Hseq [CallDescriptions (text s); AwaitDescriptions;
                    CallImage 0 d0]
                0 d1
                (call_events 2 ds
                 ++ await_events (List.length (d0 :: d1 :: ds))
                 ++ [SetTimeout 500; TimeoutCallback])%list
                eq_refl).
  destruct Hseq as [H|[H|[H|[]]]]; discriminate H.
Qed.

(* ================================================================== *)
(** ** Further properties of the orchestrator *)
(* ================================================================== *)

Section SubmissionFacts.

Import App.

Variable env : Env.

Ltac fields :=
  cbn [state trace text isLoading showResults images error loadingProgress
       descriptions fst snd].

(** The guard stops the handler, whatever was done before. *)
Lemma handleSubmit_stopped (w : World) :
  Js.truthy (Js.trim (text (state w))) = false \/ isLoading (state w) = true ->
  handleSubmit env w = (Normal tt, w).
Proof.
  intros Hguard. unfold handleSubmit.
  destruct Hguard as [H|H]; rewrite H; [reflexivity|].
  rewrite orb_true_r. reflexivity.
Qed.

(** Past the guard, without a key. *)
Lemma handleSubmit_without_key (w : World) :
  Js.truthy (Js.trim (text (state w))) = true -> isLoading (state w) = false ->
  key_present (GEMINI_API_KEY env) = false ->
  handleSubmit env w =
  (Normal tt,
   {| state :=
        mkAppState (text (state w)) (isLoading (state w))
          (showResults (state w)) (images (state w))
          (Some missing_key_message) (loadingProgress (state w))
          (descriptions (state w));
      trace := trace w |}).
Proof.
  intros Htopic Hload Hkey.
  assert (Hguard : negb true || isLoading (state w) = false)
    by (rewrite Hload; reflexivity).
  unfold handleSubmit. rewrite Htopic, Hkey, Hguard. reflexivity.
Qed.

(** Past the guard, with a key: the entry effects, then the [try]. *)
Lemma handleSubmit_started (w : World) :
  Js.truthy (Js.trim (text (state w))) = true -> isLoading (state w) = false ->
  key_present (GEMINI_API_KEY env) = true ->
  handleSubmit env w =
  try_catch (try_block env (text (state w))) catch_block
    {| state := mkAppState (text (state w)) true false [] None 0 [];
       trace := trace w |}.
Proof.
  intros Htopic Hload Hkey.
  unfold handleSubmit. rewrite Htopic, Hload, Hkey. cbn [negb orb].
  erewrite bind_normal by (unfold setIsLoading, modify; reflexivity).
  fields.
  erewrite bind_normal by (unfold setLoadingProgress, modify; reflexivity).
  fields.
  erewrite bind_normal by (unfold setError, modify; reflexivity).
  fields.
  erewrite bind_normal by (unfold setImages, modify; reflexivity).
  fields.
  erewrite bind_normal by (unfold setDescriptions, modify; reflexivity).
  fields.
  erewrite bind_normal by (unfold setShowResults, modify; reflexivity).
  reflexivity.
Qed.

(** The four ways a call of [handleSubmit] ends. *)
Lemma handleSubmit_ends (w : World) :
  handleSubmit env w = (Normal tt, w)
  \/ handleSubmit env w =
     (Normal tt,
      {| state :=
           mkAppState (text (state w)) (isLoading (state w))
             (showResults (state w)) (images (state w))
             (Some missing_key_message) (loadingProgress (state w))
             (descriptions (state w));
         trace := trace w |})
     /\ key_present (GEMINI_API_KEY env) = false
  \/ handleSubmit env w =
     (Normal tt,
      {| state :=
           mkAppState (text (state w)) false false [] (Some failure_message)
             0 [];
         trace :=
           (trace w ++ [CallDescriptions (text (state w)); AwaitDescriptions])%list |})
     /\ key_present (GEMINI_API_KEY env) = true
  \/ exists d ds,
       generateMemeDescriptions env (text (state w)) = Fulfilled (d :: ds)
       /\ key_present (GEMINI_API_KEY env) = true
       /\ handleSubmit env w =
          (Normal tt,
           {| state :=
                mkAppState (text (state w)) false true
                  (filter non_empty (generated env (d :: ds))) None 100
                  (mask_by_image (generated env (d :: ds)) (d :: ds));
              trace :=
                (trace w
                 ++ [CallDescriptions (text (state w)); AwaitDescriptions]
                 ++ call_events 0 (d :: ds)
                 ++ await_events (List.length (d :: ds))
                 ++ [SetTimeout 500; TimeoutCallback])%list |}).
Proof.
  destruct (Js.truthy (Js.trim (text (state w)))) eqn:Htopic;
    [|left; apply handleSubmit_stopped; now left].
  destruct (isLoading (state w)) eqn:Hload;
    [left; apply handleSubmit_stopped; now right|].
  destruct (key_present (GEMINI_API_KEY env)) eqn:Hkey.
  - right. right.
    rewrite (handleSubmit_started w Htopic Hload Hkey). unfold try_catch.
    destruct (generateMemeDescriptions env (text (state w)))
      as [[|d ds]|] eqn:Hdesc.
    + left. rewrite (try_block_throws env _ _ (or_intror Hdesc)).
      split; reflexivity.
    + right. exists d, ds. split; [reflexivity|]. split; [reflexivity|].
      rewrite (try_block_publishes env _ d ds _ Hdesc). reflexivity.
    + left. rewrite (try_block_throws env _ _ (or_introl Hdesc)).
      split; reflexivity.
  - right. left. split; [|reflexivity].
    pose proof (handleSubmit_without_key w Htopic Hload Hkey) as H.
    rewrite Hload in H. exact H.
Qed.

End SubmissionFacts.

Section CycleFacts.

Import App.

Lemma image_calls_app (tr tr' : list Event) :
  image_calls (tr ++ tr') = (image_calls tr ++ image_calls tr')%list.
Proof.
  induction tr as [|e tr IH]; [reflexivity|].
  destruct e; simpl; now rewrite IH.
Qed.

Lemma image_awaits_app (tr tr' : list Event) :
  image_awaits (tr ++ tr') = (image_awaits tr ++ image_awaits tr')%list.
Proof.
  induction tr as [|e tr IH]; [reflexivity|].
  destruct e; simpl; now rewrite IH.
Qed.

Lemma image_calls_call_events (ds : list string) :
  forall k,
    image_calls (call_events k ds) = combine (seq k (List.length ds)) ds
    /\ image_awaits (call_events k ds) = [].
Proof.
  induction ds as [|d ds IH]; intros k; [split; reflexivity|].
  destruct (IH (S k)) as [Hc Ha]. simpl. now rewrite Hc, Ha.
Qed.

Lemma image_awaits_await_events (n : nat) :
  image_awaits (await_events n) = seq 0 n
  /\ image_calls (await_events n) = [].
Proof.
  unfold await_events. generalize 0 as k.
  induction n as [|n IH]; intros k; [split; reflexivity|].
  destruct (IH (S k)) as [Ha Hc]. simpl. now rewrite Ha, Hc.
Qed.

Lemma mask_by_image_In (g ds : list string) (d : string) :
  In d (mask_by_image g ds) -> In d ds.
Proof.
  unfold mask_by_image. intros H. apply in_map_iff in H as [[img d'] [<- H]].
  apply filter_In in H as [H _]. now apply in_combine_r in H.
Qed.

Lemma filter_non_empty_none (g : list string) :
  (forall img, In img g -> img = "") -> filter non_empty g = [].
Proof.
  induction g as [|x g IH]; intros Hall; [reflexivity|].
  simpl. rewrite (Hall x (or_introl eq_refl)). simpl.
  apply IH. intros img Hin. apply Hall. now right.
Qed.

Lemma mask_none (g ds : list string) :
  (forall img, In img g -> img = "") -> mask_by_image g ds = [].
Proof.
  unfold mask_by_image. revert ds.
  induction g as [|x g IH]; intros ds Hall; [reflexivity|].
  destruct ds as [|d ds]; [reflexivity|].
  simpl. rewrite (Hall x (or_introl eq_refl)). simpl.
  apply IH. intros img Hin. apply Hall. now right.
Qed.

Lemma filter_length_le {A} (p : A -> bool) (l : list A) :
  List.length (filter p l) <= List.length l.
Proof. induction l as [|x l IH]; simpl; [lia|]. destruct (p x); simpl; lia. Qed.

(** What the description client of [api.ts] returns is short and has no
    blank line. *)
Lemma api_descriptions_short
    (axios_post : Api.PostRequest -> Settled Api.GeminiResponse)
    (apiKey : option string) (prompt : string) :
  List.length (Api.generateMemeDescriptions axios_post apiKey prompt) <= 4
  /\ forall line,
       In line (Api.generateMemeDescriptions axios_post apiKey prompt) ->
       Js.trim line <> "".
Proof.
  destruct (generateMemeDescriptions_cases axios_post apiKey prompt)
    as [E|[t E]]; rewrite E.
  - split; [simpl; lia|contradiction].
  - split; [rewrite length_firstn; lia|].
    intros line Hin. apply firstn_In in Hin. apply filter_In in Hin as [_ Hnb].
    unfold Api.non_blank in Hnb. intros Hblank. rewrite Hblank in Hnb.
    discriminate Hnb.
Qed.

(** The image calls and the awaited promises in the trace of an accepted
    submission, listed in order. *)
Lemma submit_image_call_list (env : Env) (s : AppState) (ds : list string) :
  accepted env s ->
  generateMemeDescriptions env (text s) = Fulfilled ds ->
  image_calls (trace (submit env s)) = combine (seq 0 (List.length ds)) ds
  /\ image_awaits (trace (submit env s)) = seq 0 (List.length ds).
Proof.
  intros Hacc Hdesc. destruct ds as [|d0 ds].
  - rewrite (submit_aborts env s Hacc (or_intror Hdesc)). split; reflexivity.
  - rewrite (submit_publishes env s d0 ds Hacc Hdesc). cbn [trace].
    rewrite !image_calls_app, !image_awaits_app.
    destruct (image_calls_call_events (d0 :: ds) 0) as [-> ->].
    destruct (image_awaits_await_events (List.length (d0 :: ds))) as [-> ->].
    cbn [image_calls image_awaits app]. rewrite !app_nil_r.
    split; reflexivity.
Qed.

(** [handleSubmit] completes normally. *)
Lemma handleSubmit_completes (env : Env) (w : World) :
  handleSubmit env w = (Normal tt, snd (handleSubmit env w)).
Proof.
  destruct (handleSubmit_ends env w)
    as [H|[[H _]|[[H _]|(d & ds & _ & _ & H)]]]; now rewrite H.
Qed.

End CycleFacts.

(** No error escapes [handleSubmit]: whatever the clients answer, whatever
    the state and whatever was done before, the handler completes normally
    (its promise is never rejected). *)
Theorem handleSubmit_never_throws (env : Env) (w : World) :
  fst (handleSubmit env w) = Normal tt.
Proof.
  destruct (handleSubmit_ends env w)
    as [H|[[H _]|[[H _]|(d & ds & _ & _ & H)]]]; now rewrite H.
Qed.

(** A submission that passes the guard while the key is missing sets the
    set-up message and does nothing else: no client is called and every
    other part of the state is kept. *)
Theorem handleSubmit_missing_key (env : Env) (s : AppState) :
  Js.trim (text s) <> "" -> isLoading s = false ->
  key_present (GEMINI_API_KEY env) = false ->
  submit env s =
  {| state :=
       mkAppState (text s) false (showResults s) (images s)
         (Some "API key is missing. Please check your .env or .env.local file and make sure REACT_APP_GEMINI_API_KEY is set.")
         (loadingProgress s) (descriptions s);
     trace := [] |}.
Proof.
  intros Htopic Hload Hkey. unfold submit.
  rewrite (handleSubmit_without_key env {| state := s; trace := [] |}
             (truthy_non_empty _ Htopic) Hload Hkey).
  cbn [snd state trace]. now rewrite Hload.
Qed.

Lemma handleSubmit_missing_key_witness :
  submit {| GEMINI_API_KEY := None;
            generateMemeDescriptions := fun _ => Fulfilled ["Description 1"];
            makeGeminiRequest := fun _ _ => Fulfilled "mockBase64Data" |}
    (mkAppState "contract law" false true ["old"] None 100 ["Old description"])
  = {| state :=
         mkAppState "contract law" false true ["old"]
           (Some missing_key_message) 100 ["Old description"];
       trace := [] |}.
Proof.
  apply (handleSubmit_missing_key
           {| GEMINI_API_KEY := None;
              generateMemeDescriptions := fun _ => Fulfilled ["Description 1"];
              makeGeminiRequest := fun _ _ => Fulfilled "mockBase64Data" |}
           (mkAppState "contract law" false true ["old"] None 100
              ["Old description"])).
  - discriminate.
  - reflexivity.
  - reflexivity.
Defined.

(** The results of a cycle replace those of the cycle before: what an
    accepted submission leaves (state and calls) depends on the topic and
    on the answers of the clients only, not on the images, descriptions,
    error, progress or gallery left by earlier submissions. *)
Theorem handleSubmit_replaces_results (env : Env) (s s' : AppState) :
  accepted env s -> accepted env s' -> text s = text s' ->
  submit env s = submit env s'.
Proof.
  intros Hacc Hacc' Htext.
  destruct (generateMemeDescriptions env (text s)) as [[|d ds]|] eqn:Hdesc.
  - rewrite (submit_aborts env s Hacc (or_intror Hdesc)).
    rewrite Htext in Hdesc.
    rewrite (submit_aborts env s' Hacc' (or_intror Hdesc)). now rewrite Htext.
  - rewrite (submit_publishes env s d ds Hacc Hdesc).
    rewrite Htext in Hdesc.
    rewrite (submit_publishes env s' d ds Hacc' Hdesc). now rewrite Htext.
  - rewrite (submit_aborts env s Hacc (or_introl Hdesc)).
    rewrite Htext in Hdesc.
    rewrite (submit_aborts env s' Hacc' (or_introl Hdesc)). now rewrite Htext.
Qed.

Lemma handleSubmit_replaces_results_witness :
  let env := mock_env (Fulfilled ["Description 1"; "Description 2"])
               [Fulfilled "img1"; Rejected] in
  submit env (idle "contract law")
  = submit env
      (mkAppState "contract law" false true ["old1"; "old2"]
         (Some "Failed to generate images. Please try again.") 100
         ["Old 1"; "Old 2"]).
Proof.
  intros env.
  apply (handleSubmit_replaces_results env (idle "contract law")
           (mkAppState "contract law" false true ["old1"; "old2"]
              (Some "Failed to generate images. Please try again.") 100
              ["Old 1"; "Old 2"])).
  - repeat split; reflexivity.
  - repeat split; reflexivity.
  - reflexivity.
Defined.

(** When every image call of a cycle fails (rejects or gives the empty
    string), the cycle still ends as a success: the gallery is revealed,
    empty, loading ends, and no error message is set. *)
Theorem handleSubmit_all_images_fail
    (env : Env) (s : AppState) (d : string) (ds : list string) :
  accepted env s ->
  generateMemeDescriptions env (text s) = Fulfilled (d :: ds) ->
  (forall img, In img (generated env (d :: ds)) -> img = "") ->
  let shown := state (submit env s) in
  showResults shown = true /\ images shown = [] /\ descriptions shown = []
  /\ error shown = None /\ isLoading shown = false.
Proof.
  intros Hacc Hdesc Hfail shown. subst shown.
  rewrite (submit_publishes env s d ds Hacc Hdesc).
  cbn [state showResults images descriptions error isLoading].
  rewrite (filter_non_empty_none _ Hfail), (mask_none _ (d :: ds) Hfail).
  repeat split.
Qed.

Lemma handleSubmit_all_images_fail_witness :
  let shown :=
    state (submit (mock_env (Fulfilled ["Description 1"; "Description 2"])
                     [Rejected; Fulfilled ""])
             (idle "contract law")) in
  showResults shown = true /\ images shown = [] /\ descriptions shown = []
  /\ error shown = None /\ isLoading shown = false.
Proof.
  apply (handleSubmit_all_images_fail
           (mock_env (Fulfilled ["Description 1"; "Description 2"])
              [Rejected; Fulfilled ""])
           (idle "contract law") "Description 1" ["Description 2"]).
  - repeat split; reflexivity.
  - reflexivity.
  - intros img [H|[H|[]]]; now rewrite <- H.
Defined.

(** The image client is called exactly once for each description and for
    nothing else: the calls of a cycle, listed in the order they are made,
    are one call per position, carrying the description at that position
    as the description client returned it (the marker phrase is not
    stripped); and each of their promises is awaited exactly once, in the
    same order. *)
Theorem handleSubmit_image_calls
    (env : Env) (s : AppState) (ds : list string) :
  accepted env s ->
  generateMemeDescriptions env (text s) = Fulfilled ds ->
  image_calls (trace (submit env s)) = combine (seq 0 (List.length ds)) ds
  /\ List.length (image_calls (trace (submit env s))) = List.length ds
  /\ image_awaits (trace (submit env s)) = seq 0 (List.length ds).
Proof.
  intros Hacc Hdesc.
  destruct (submit_image_call_list env s ds Hacc Hdesc) as [Hcalls Hawaits].
  split; [exact Hcalls|]. split; [|exact Hawaits].
  rewrite Hcalls, length_combine, length_seq. apply Nat.min_id.
Qed.

Lemma handleSubmit_image_calls_witness :
  let tr :=
    trace (submit (mock_env (Fulfilled ["Square image. A"; "Square image. B"])
                     [Fulfilled "img1"; Rejected])
             (idle "contract law")) in
  image_calls tr = [(0, "Square image. A"); (1, "Square image. B")]
  /\ List.length (image_calls tr) = 2
  /\ image_awaits tr = [0; 1].
Proof.
  intros tr.
  apply (handleSubmit_image_calls
           (mock_env (Fulfilled ["Square image. A"; "Square image. B"])
              [Fulfilled "img1"; Rejected])
           (idle "contract law") ["Square image. A"; "Square image. B"]).
  - repeat split; reflexivity.
  - reflexivity.
Defined.

(** With the clients of [api.ts], a cycle makes at most 4 image calls and
    shows at most 4 items, and no description that is sent to the image
    client or shown in the gallery is blank. *)
Theorem api_cycle_bounds
    (k : string) (text_post : Api.PostRequest -> Settled Api.GeminiResponse)
    (image_post : nat -> Api.PostRequest -> Settled Api.GeminiResponse)
    (s : AppState) :
  accepted (api_env (Some k) text_post image_post) s ->
  let w := submit (api_env (Some k) text_post image_post) s in
  List.length (image_calls (trace w)) <= 4
  /\ (forall i d, In (i, d) (image_calls (trace w)) ->
                  i < 4 /\ Js.trim d <> "")
  /\ List.length (images (state w)) <= 4
  /\ List.length (descriptions (state w)) <= 4
  /\ (forall d, In d (descriptions (state w)) -> Js.trim d <> "").
Proof.
  intros Hacc w. subst w.
  set (env := api_env (Some k) text_post image_post) in *.
  set (ds := Api.generateMemeDescriptions text_post (Some k) (text s)).
  assert (Hdesc : generateMemeDescriptions env (text s) = Fulfilled ds)
    by reflexivity.
  destruct (api_descriptions_short text_post (Some k) (text s))
    as [Hshort Hlines]. fold ds in Hshort, Hlines.
  assert (Hshown : images (state (submit env s))
                   = filter non_empty (generated env ds)
                   /\ descriptions (state (submit env s))
                      = mask_by_image (generated env ds) ds).
  { destruct ds as [|d0 ds'] eqn:E.
    - rewrite (submit_aborts env s Hacc (or_intror Hdesc)). split; reflexivity.
    - rewrite (submit_publishes env s d0 ds' Hacc Hdesc). split; reflexivity. }
  destruct Hshown as [Himg Hdes].
  pose proof (generated_length env ds) as Hgen.
  destruct (submit_image_call_list env s ds Hacc Hdesc) as [Hcalls _].
  split; [|split; [|split; [|split]]].
  - rewrite Hcalls, length_combine, length_seq. lia.
  - intros i d Hin. rewrite Hcalls in Hin. split.
    + apply in_combine_l in Hin. apply in_seq in Hin. lia.
    + apply Hlines. now apply in_combine_r in Hin.
  - rewrite Himg. pose proof (filter_length_le non_empty (generated env ds)).
    lia.
  - rewrite Hdes, <- (mask_length _ _ Hgen).
    pose proof (filter_length_le non_empty (generated env ds)). lia.
  - intros d Hin. rewrite Hdes in Hin. apply mask_by_image_In in Hin.
    now apply Hlines.
Qed.

Lemma api_cycle_bounds_witness :
  let response :=
    [ {| Api.parts :=
           [ {| Api.text :=
                  Some ("Square image. One" ++ Api.LF ++ "Square image. Two"
                        ++ Api.LF ++ "Square image. Three" ++ Api.LF
                        ++ "Square image. Four" ++ Api.LF
                        ++ "Square image. Five");
                Api.inlineData := None |} ] |} ] in
  let w :=
    submit (api_env (Some "test-api-key") (fun _ => Fulfilled response)
              (fun _ _ => Rejected))
      (idle "contract law") in
  List.length (image_calls (trace w)) <= 4
  /\ List.length (images (state w)) <= 4.
Proof.
  intros response w.
  destruct (api_cycle_bounds "test-api-key" (fun _ => Fulfilled response)
              (fun _ _ => Rejected) (idle "contract law"))
    as (Hcalls & _ & Himg & _).
  - repeat split; reflexivity.
  - split; [exact Hcalls|exact Himg].
Defined.

(** A key press leaves the world alone or does what a submission does. *)
Lemma handleKeyDown_world (env : Env) (e : KeyboardEvent) (w : World) :
  snd (handleKeyDown env e w) = w
  \/ snd (handleKeyDown env e w) = snd (handleSubmit env w).
Proof.
  unfold handleKeyDown.
  destruct (String.eqb (key e) "Enter" && negb (shiftKey e)); [|now left].
  destruct (Js.truthy (Js.trim (text (state w))) && negb (isLoading (state w))).
  - right. now rewrite (bind_normal _ _ _ _ _ (handleSubmit_completes env w)).
  - now left.
Qed.

(** Enter without Shift in the text area has exactly the effect of
    submitting the form, and the default action of the key is prevented;
    any other key, and Enter with Shift, changes nothing and is left to
    the text area. *)
Theorem handleKeyDown_submits (env : Env) (e : KeyboardEvent) (w : World) :
  (key e = "Enter" -> shiftKey e = false ->
   handleKeyDown env e w = (Normal true, snd (handleSubmit env w)))
  /\ (key e <> "Enter" \/ shiftKey e = true ->
      handleKeyDown env e w = (Normal false, w)).
Proof.
  split.
  - intros Hkey Hshift. unfold handleKeyDown. rewrite Hkey, Hshift.
    cbn [String.eqb Ascii.eqb Bool.eqb negb andb].
    destruct (Js.truthy (Js.trim (text (state w)))) eqn:Htopic.
    + destruct (isLoading (state w)) eqn:Hload; cbn [negb andb].
      * now rewrite (handleSubmit_stopped env w (or_intror Hload)).
      * now rewrite (bind_normal _ _ _ _ _ (handleSubmit_completes env w)).
    + cbn [andb]. now rewrite (handleSubmit_stopped env w (or_introl Htopic)).
  - intros Hother. unfold handleKeyDown.
    destruct Hother as [Hkey|Hshift].
    + apply String.eqb_neq in Hkey. now rewrite Hkey.
    + rewrite Hshift. now rewrite andb_false_r.
Qed.

Lemma handleKeyDown_submits_witness :
  let env := mock_env (Fulfilled ["Description 1"]) [Fulfilled "img1"] in
  let w := {| state := idle "contract law"; trace := [] |} in
  handleKeyDown env {| key := "Enter"; shiftKey := false |} w
  = (Normal true, snd (handleSubmit env w))
  /\ handleKeyDown env {| key := "Enter"; shiftKey := true |} w
     = (Normal false, w).
Proof.
  intros env w. split.
  - apply (handleKeyDown_submits env {| key := "Enter"; shiftKey := false |} w);
      reflexivity.
  - apply (handleKeyDown_submits env {| key := "Enter"; shiftKey := true |} w).
    right. reflexivity.
Defined.

Section SessionFacts.

Variable apiKey : option string.

(** [coherent], with what makes it hold along a session: without a key no
    gallery is ever revealed. *)
Let steady (s : AppState) : Prop :=
  coherent s /\ (key_present apiKey = false -> showResults s = false).

Lemma steady_after_submit (answers : Answers) (s : AppState) :
  steady s ->
  steady (state (snd (handleSubmit (env_with apiKey answers)
                        {| state := s; trace := [] |}))).
Proof.
  intros Hs.
  pose proof Hs as [(Hlen & Hne & Hload & Hhidden & Hshown) Hkeyless].
  set (env := env_with apiKey answers).
  destruct (handleSubmit_ends env {| state := s; trace := [] |})
    as [H|[[H Hkey]|[[H Hkey]|(d & ds & _ & Hkey & H)]]];
    rewrite H; cbn [snd state].
  - exact Hs.
  - cbn [env env_with GEMINI_API_KEY] in Hkey.
    split; [|exact Hkeyless].
    unfold coherent;
      cbn [images descriptions isLoading showResults error].
    repeat split; auto; try (now apply Hhidden).
    intros Hsh. rewrite (Hkeyless Hkey) in Hsh. discriminate Hsh.
  - split; [|reflexivity].
    unfold coherent;
      cbn [images descriptions isLoading showResults error].
    repeat split; auto; try contradiction. discriminate.
  - cbn [env env_with GEMINI_API_KEY] in Hkey.
    split; [|intros Hk; rewrite Hk in Hkey; discriminate Hkey].
    unfold coherent;
      cbn [images descriptions isLoading showResults error].
    split; [apply mask_length, generated_length|].
    split.
    { intros img Hin. apply filter_In in Hin as [_ Hn]. unfold non_empty in Hn.
      intros ->. discriminate Hn. }
    repeat split; auto; discriminate.
Qed.

Lemma steady_after_act (a : Action) (s : AppState) :
  steady s -> steady (act apiKey s a).
Proof.
  intros Hs. destruct a as [value|answers|e answers]; unfold act.
  - exact Hs.
  - now apply steady_after_submit.
  - destruct (handleKeyDown_world (env_with apiKey answers) e
                {| state := s; trace := [] |}) as [H|H]; rewrite H.
    + exact Hs.
    + now apply steady_after_submit.
Qed.

Lemma steady_session (actions : list Action) :
  forall s, steady s -> steady (fold_left (act apiKey) actions s).
Proof.
  induction actions as [|a actions IH]; intros s Hs; [exact Hs|].
  simpl. apply IH. now apply steady_after_act.
Qed.

End SessionFacts.

(** Whatever the user types and submits, and whatever the clients answer,
    the page is coherent after every action: there is one description per
    image and no empty image, nothing is left loading, images are held
    only by a revealed gallery, and a gallery is never shown together with
    an error message. *)
Theorem session_coherent (apiKey : option string) (actions : list Action) :
  coherent (session apiKey actions).
Proof.
  unfold session. apply (steady_session apiKey actions).
  unfold checkApiKey.
  destruct (key_present apiKey) eqn:Hkey; cbn [negb snd state].
  - split; [|discriminate].
    repeat split; auto; try contradiction; discriminate.
  - split; [|reflexivity].
    repeat split; auto; try contradiction; discriminate.
Qed.

(* ================================================================== *)
(** ** Further properties of the gallery and of the clients *)
(* ================================================================== *)

Section GalleryFacts.

Import Js ImageDisplay.

Lemma click_valid (images descriptions : list string) (c : Click)
    (sel : EnlargedSelection) :
  rendered images c -> valid_selection images sel ->
  valid_selection images (fst (click images descriptions c sel)).
Proof.
  intros Hc Hsel. destruct c as [index|index| | | |]; simpl; auto.
  - unfold handleImageClick. destruct sel as [current|]; simpl; auto.
    destruct (Nat.eqb current index); simpl; auto.
  - destruct sel; simpl; auto.
Qed.

Lemma handleDownload_anchor (images descriptions : list string)
    (index : nat) (a : Anchor) :
  handleDownload images descriptions index = Some a ->
  anchor_of images descriptions a.
Proof.
  unfold handleDownload.
  destruct (nth_error images index) as [imageData|] eqn:E; [|discriminate].
  intros H. injection H as <-. exists index, imageData. auto.
Qed.

Lemma click_anchor (images descriptions : list string) (c : Click)
    (sel : EnlargedSelection) (a : Anchor) :
  snd (click images descriptions c sel) = Some a ->
  anchor_of images descriptions a.
Proof.
  destruct c as [index|index| | | |]; simpl; try discriminate.
  - apply handleDownload_anchor.
  - destruct sel as [index|]; simpl; [apply handleDownload_anchor|discriminate].
Qed.

Lemma match_literal_i_rest (pattern : string) :
  forall s rest,
    match_literal_i pattern s = Some rest -> exists skipped, s = skipped ++ rest.
Proof.
  induction pattern as [|p pattern IH]; intros s rest H; simpl in H.
  - injection H as ->. now exists "".
  - destruct s as [|c s]; [discriminate|].
    destruct (Ascii.eqb (canonicalize c) (canonicalize p)); [|discriminate].
    destruct (IH s rest H) as [skipped ->]. now exists (String c skipped).
Qed.

Lemma append_assoc (a b c : string) : (a ++ b) ++ c = a ++ b ++ c.
Proof. induction a as [|x a IH]; simpl; congruence. Qed.

Lemma append_length (a b : string) :
  String.length (a ++ b) = String.length a + String.length b.
Proof. induction a as [|x a IH]; simpl; congruence. Qed.

Lemma trimStart_rest (s : string) : exists skipped, s = skipped ++ trimStart s.
Proof. destruct (trimStart_decompose s) as (l & H & _). now exists l. Qed.

Lemma match_opt_punct_rest (s : string) :
  exists skipped, s = skipped ++ match_opt_punct s.
Proof.
  destruct s as [|c r]; [now exists ""|]. simpl.
  destruct (Ascii.eqb c "." || Ascii.eqb c ":" || Ascii.eqb c ",").
  - now exists (String c "").
  - now exists "".
Qed.

Lemma match_squareimage_rest (s rest : string) :
  match_squareimage s = Some rest -> exists skipped, s = skipped ++ rest.
Proof.
  unfold match_squareimage.
  destruct (match_literal_i "squareimage" s) as [s1|] eqn:E; [|discriminate].
  intros H. injection H as <-.
  apply match_literal_i_rest in E as [a ->].
  destruct (match_opt_punct_rest s1) as [b Hb].
  destruct (trimStart_rest (match_opt_punct s1)) as [c Hc].
  exists (a ++ b ++ c). rewrite Hb at 1. rewrite Hc at 1.
  now rewrite !append_assoc.
Qed.

Lemma match_square_image_rest (s rest : string) :
  match_square_image s = Some rest -> exists skipped, s = skipped ++ rest.
Proof.
  unfold match_square_image.
  destruct (match_literal_i "square" s) as [s1|] eqn:E1; [|discriminate].
  destruct (match_spaces1 s1) as [s2|] eqn:E2; [|discriminate].
  destruct (match_literal_i "image" s2) as [s3|] eqn:E3; [|discriminate].
  intros H. injection H as <-.
  apply match_literal_i_rest in E1 as [a ->], E3 as [c ->].
  assert (Hb : exists b, s1 = b ++ (c ++ s3)).
  { destruct s1 as [|x r]; [discriminate|]. simpl in E2.
    destruct (is_space x); [|discriminate]. injection E2 as E2.
    destruct (trimStart_rest r) as [b Hb]. exists (String x b).
    simpl. rewrite Hb at 1. now rewrite E2. }
  destruct Hb as [b ->].
  destruct (match_opt_punct_rest s3) as [d Hd].
  destruct (trimStart_rest (match_opt_punct s3)) as [e He].
  exists (a ++ b ++ c ++ d ++ e). rewrite Hd at 1. rewrite He at 1.
  now rewrite !append_assoc.
Qed.

Lemma replace_prefix_rest (re : string -> option string) (s : string) :
  (forall rest, re s = Some rest -> exists skipped, s = skipped ++ rest) ->
  exists skipped, s = skipped ++ replace_prefix re s.
Proof.
  intros Hre. unfold replace_prefix. destruct (re s) as [rest|].
  - now apply Hre.
  - now exists "".
Qed.

(** The pairs of a gallery: filtering the images and masking the
    descriptions is filtering the pairs. *)
Lemma filter_pairs (g ds : list string) :
  List.length g = List.length ds ->
  let pairs :=
    filter (fun pair => negb (String.eqb (fst pair) "")) (combine g ds) in
  map fst pairs = filter App.non_empty g
  /\ map snd pairs = App.mask_by_image g ds.
Proof.
  intros Hlen pairs. split; [|reflexivity]. subst pairs. revert ds Hlen.
  induction g as [|x g IH]; intros [|d ds] Hlen; try discriminate; auto.
  injection Hlen as Hlen. simpl. unfold App.non_empty at 1.
  destruct (String.eqb x ""); simpl; [|f_equal]; now apply IH.
Qed.

End GalleryFacts.

(** Whatever is clicked in a rendered gallery, the enlarged item stays a
    position of [images] (so the enlarged view always has an image to
    show), and every download is for an image of the gallery, under the
    name computed from the description at the same position. *)
Theorem clicks_keep_selection_valid
    (images descriptions : list string) (cs : list Click) :
  Forall (rendered images) cs ->
  forall sel : EnlargedSelection,
    valid_selection images sel ->
    valid_selection images (fst (clicks images descriptions cs sel))
    /\ Forall (anchor_of images descriptions)
         (snd (clicks images descriptions cs sel)).
Proof.
  induction 1 as [|c cs Hc _ IH]; intros sel Hsel; simpl.
  - split; [exact Hsel|constructor].
  - pose proof (click_valid images descriptions c sel Hc Hsel) as Hnext.
    pose proof (click_anchor images descriptions c sel) as Hdown.
    destruct (click images descriptions c sel) as [sel' downloaded].
    cbn [fst snd] in Hnext, Hdown.
    destruct (IH sel' Hnext) as [Hfinal Hlater].
    destruct (clicks images descriptions cs sel') as [final later].
    cbn [fst snd] in *. split; [exact Hfinal|].
    destruct downloaded as [a|]; [|exact Hlater].
    constructor; [now apply Hdown|exact Hlater].
Qed.

Lemma clicks_keep_selection_valid_witness :
  let images := ["base64image1"; "base64image2"] in
  let descriptions := ["Square image. A judge"] in
  let cs := [ImageItem 1; DownloadButton 0; EnlargedDownloadButton;
             ImageItem 0; CloseButton; ImageItem 1] in
  valid_selection images (fst (clicks images descriptions cs None))
  /\ Forall (anchor_of images descriptions)
       (snd (clicks images descriptions cs None)).
Proof.
  intros images descriptions cs.
  apply (clicks_keep_selection_valid images descriptions cs).
  - repeat constructor.
  - exact I.
Defined.



(** The caption never holds anything that is not in the description: it
    is one piece of the raw text, has no white space at either end, and is
    not longer than the raw text. *)
Theorem computeDisplayDescription_piece (raw : string) :
  piece_of (computeDisplayDescription raw) raw
  /\ Js.trim (computeDisplayDescription raw) = computeDisplayDescription raw
  /\ String.length (computeDisplayDescription raw) <= String.length raw.
Proof.
  unfold computeDisplayDescription.
  destruct (replace_prefix_rest match_square_image raw
              (match_square_image_rest raw)) as [a Ha].
  set (t1 := replace_prefix match_square_image raw) in *.
  destruct (replace_prefix_rest match_squareimage t1
              (match_squareimage_rest t1)) as [b Hb].
  set (t2 := replace_prefix match_squareimage t1) in *.
  destruct (trim_decompose t2) as (l & r & Ht & _ & _).
  assert (Hpiece : raw = (a ++ b ++ l) ++ Js.trim t2 ++ r).
  { rewrite Ha at 1. rewrite Hb at 1. rewrite Ht at 1.
    now rewrite !append_assoc. }
  split; [now exists (a ++ b ++ l), r|].
  split; [apply trim_idempotent|].
  apply (f_equal String.length) in Hpiece.
  rewrite !append_length in Hpiece. lia.
Qed.

(** The image client never raises.  Its result is the payload of the
    first part that carries inline data, whatever parts come before or
    after it; it is the empty string when the key is missing or empty,
    when the post is rejected, when there is no candidate and when no part
    carries inline data. *)
Theorem makeGeminiRequest_result
    (axios_post : Api.PostRequest -> Settled Api.GeminiResponse)
    (apiKey : option string) (prompt : string) :
  let result := Api.makeGeminiRequest axios_post apiKey prompt in
  (key_present apiKey = false -> result = "")
  /\ (forall k, apiKey = Some k ->
      let outcome := axios_post (Api.image_request k prompt) in
      (outcome = Rejected -> result = "")
      /\ (outcome = Fulfilled [] -> result = "")
      /\ (forall candidate others,
            outcome = Fulfilled (candidate :: others) ->
            (forall part, In part (Api.parts candidate) ->
                          Api.inlineData part = None) ->
            result = "")
      /\ (forall candidate others before imagePart after d,
            k <> "" ->
            outcome = Fulfilled (candidate :: others) ->
            Api.parts candidate = (before ++ imagePart :: after)%list ->
            (forall part, In part before -> Api.inlineData part = None) ->
            Api.inlineData imagePart = Some d ->
            result = Api.data d)).
Proof.
  intros result. subst result.
  unfold Api.makeGeminiRequest, Api.makeGeminiRequest_try.
  split.
  - destruct apiKey as [k|]; [|reflexivity]. simpl. now intros ->.
  - intros k ->. cbv zeta.
    destruct (Js.truthy k) eqn:Hk; cbn [negb].
    + split; [intros Hpost; now rewrite Hpost|].
      split; [intros Hpost; now rewrite Hpost|]. split.
      * intros candidate others Hpost Hnone. rewrite Hpost. cbn [nth_error].
        destruct (find Api.has_inlineData (Api.parts candidate))
          as [part|] eqn:Hfind; [|reflexivity].
        apply find_some in Hfind as [Hin Hhas].
        unfold Api.has_inlineData in Hhas. now rewrite (Hnone part Hin) in Hhas.
      * intros candidate others before imagePart after d _ Hpost Hparts
          Hbefore Himg.
        rewrite Hpost. cbn [nth_error]. rewrite Hparts.
        assert (Hfind : find Api.has_inlineData (before ++ imagePart :: after)
                        = Some imagePart).
        { clear Hparts. induction before as [|p before IH]; simpl.
          - unfold Api.has_inlineData. now rewrite Himg.
          - unfold Api.has_inlineData at 1.
            rewrite (Hbefore p (or_introl eq_refl)).
            apply IH. intros part Hin. apply Hbefore. now right. }
        rewrite Hfind, Himg. reflexivity.
    + split; [reflexivity|]. split; [reflexivity|]. split; [reflexivity|].
      intros candidate others before imagePart after d Hne.
      destruct k; [contradiction|discriminate].
Qed.

Lemma makeGeminiRequest_result_witness :
  let textPart :=
    {| Api.text := Some "Here is your meme"; Api.inlineData := None |} in
  let imagePart :=
    {| Api.text := None;
       Api.inlineData :=
         Some {| Api.mimeType := "image/png";
                 Api.data := "test-base64-data" |} |} in
  Api.makeGeminiRequest
    (fun _ => Fulfilled [ {| Api.parts := [textPart; imagePart] |} ])
    (Some "test-api-key") "test prompt"
  = "test-base64-data"
  /\ Api.makeGeminiRequest (fun _ => Rejected) None "test prompt" = "".
Proof.
  intros textPart imagePart. split.
  - destruct (makeGeminiRequest_result
                (fun _ => Fulfilled [ {| Api.parts := [textPart; imagePart] |} ])
                (Some "test-api-key") "test prompt") as [_ Hkey].
    destruct (Hkey "test-api-key" eq_refl) as (_ & _ & _ & Himg).
    apply (Himg {| Api.parts := [textPart; imagePart] |} [] [textPart]
             imagePart []
             {| Api.mimeType := "image/png"; Api.data := "test-base64-data" |}).
    + discriminate.
    + reflexivity.
    + reflexivity.
    + intros part [<-|[]]. reflexivity.
    + reflexivity.
  - destruct (makeGeminiRequest_result (fun _ => Rejected) None "test prompt")
      as [Hmissing _].
    apply Hmissing. reflexivity.
Defined.

(** Without a usable key, and for a response with no candidate, the
    description client returns no description, whatever the transport
    would answer; and a description it returns is always a single line: it
    holds no line feed. *)
Theorem generateMemeDescriptions_edges
    (axios_post : Api.PostRequest -> Settled Api.GeminiResponse)
    (apiKey : option string) (prompt : string) :
  let result := Api.generateMemeDescriptions axios_post apiKey prompt in
  (key_present apiKey = false -> result = [])
  /\ (forall k, apiKey = Some k ->
      axios_post (Api.description_request k prompt) = Fulfilled [] ->
      result = [])
  /\ (forall line, In line result ->
      all_chars (fun c => negb (Ascii.eqb c "010")) line = true).
Proof.
  intros result. subst result. split; [|split].
  - unfold Api.generateMemeDescriptions, Api.generateMemeDescriptions_try.
    destruct apiKey as [k|]; [|reflexivity]. simpl. now intros ->.
  - intros k -> Hpost.
    unfold Api.generateMemeDescriptions, Api.generateMemeDescriptions_try.
    rewrite Hpost. now destruct (Js.truthy k).
  - intros line Hin.
    destruct (generateMemeDescriptions_cases axios_post apiKey prompt)
      as [E|[t E]]; rewrite E in Hin; [contradiction|].
    apply firstn_In in Hin. apply filter_In in Hin as [Hin _].
    pose proof (split_lf_pieces t) as Hpieces.
    rewrite Forall_forall in Hpieces. now apply Hpieces.
Qed.

Lemma generateMemeDescriptions_edges_witness :
  Api.generateMemeDescriptions (fun _ => Fulfilled []) (Some "test-api-key")
    "test topic" = []
  /\ Api.generateMemeDescriptions (fun _ => Rejected) (Some "") "test topic"
     = [].
Proof.
  split.
  - destruct (generateMemeDescriptions_edges (fun _ => Fulfilled [])
                (Some "test-api-key") "test topic") as (_ & Hempty & _).
    apply (Hempty "test-api-key"); reflexivity.
  - destruct (generateMemeDescriptions_edges (fun _ => Rejected)
                (Some "") "test topic") as (Hmissing & _).
    apply Hmissing. reflexivity.
Defined.

Section CaseFacts.

Import Js ImageDisplay.

(** Lower-casing a letter A-Z changes neither what the character is for a
    case-insensitive pattern nor whether it is white space or one of the
    three punctuation marks. *)
Lemma ascii_lower_char_same_class (c : ascii) :
  canonicalize (ascii_lower_char c) = canonicalize c
  /\ is_space (ascii_lower_char c) = is_space c
  /\ (Ascii.eqb (ascii_lower_char c) "." || Ascii.eqb (ascii_lower_char c) ":"
      || Ascii.eqb (ascii_lower_char c) ","
      = (Ascii.eqb c "." || Ascii.eqb c ":" || Ascii.eqb c ",")).
Proof.
  destruct c as [[] [] [] [] [] [] [] []]; vm_compute; auto.
Qed.

Lemma ascii_lower_trimStart (s : string) :
  ascii_lower (trimStart s) = trimStart (ascii_lower s).
Proof.
  induction s as [|c r IH]; [reflexivity|].
  simpl. destruct (ascii_lower_char_same_class c) as (_ & -> & _).
  destruct (is_space c); [exact IH|reflexivity].
Qed.

Lemma ascii_lower_trimEnd (s : string) :
  ascii_lower (trimEnd s) = trimEnd (ascii_lower s).
Proof.
  induction s as [|c r IH]; [reflexivity|].
  change (ascii_lower (String c r))
    with (String (ascii_lower_char c) (ascii_lower r)).
  rewrite !trimEnd_cons, <- IH.
  destruct (ascii_lower_char_same_class c) as (_ & -> & _).
  destruct (trimEnd r) as [|c' r']; simpl; [|reflexivity].
  destruct (is_space c); reflexivity.
Qed.

Lemma ascii_lower_trim (s : string) :
  ascii_lower (trim s) = trim (ascii_lower s).
Proof. unfold trim. now rewrite ascii_lower_trimEnd, ascii_lower_trimStart. Qed.

Lemma ascii_lower_match_literal_i (pattern : string) :
  forall s,
    match_literal_i pattern (ascii_lower s)
    = option_map ascii_lower (match_literal_i pattern s).
Proof.
  induction pattern as [|p pattern IH]; intros s; [reflexivity|].
  destruct s as [|c s]; [reflexivity|]. simpl.
  destruct (ascii_lower_char_same_class c) as (-> & _ & _).
  destruct (Ascii.eqb (canonicalize c) (canonicalize p)); [apply IH|reflexivity].
Qed.

Lemma ascii_lower_match_opt_punct (s : string) :
  match_opt_punct (ascii_lower s) = ascii_lower (match_opt_punct s).
Proof.
  destruct s as [|c r]; [reflexivity|]. simpl.
  destruct (ascii_lower_char_same_class c) as (_ & _ & ->).
  destruct (Ascii.eqb c "." || Ascii.eqb c ":" || Ascii.eqb c ","); reflexivity.
Qed.

Lemma ascii_lower_match_squareimage (s : string) :
  match_squareimage (ascii_lower s)
  = option_map ascii_lower (match_squareimage s).
Proof.
  unfold match_squareimage. rewrite ascii_lower_match_literal_i.
  destruct (match_literal_i "squareimage" s) as [s1|]; [|reflexivity].
  cbn [option_map].
  now rewrite ascii_lower_match_opt_punct, ascii_lower_trimStart.
Qed.

Lemma ascii_lower_match_square_image (s : string) :
  match_square_image (ascii_lower s)
  = option_map ascii_lower (match_square_image s).
Proof.
  unfold match_square_image. rewrite ascii_lower_match_literal_i.
  destruct (match_literal_i "square" s) as [s1|]; [|reflexivity].
  cbn [option_map].
  assert (Hsp : match_spaces1 (ascii_lower s1)
                = option_map ascii_lower (match_spaces1 s1)).
  { destruct s1 as [|c r]; [reflexivity|]. simpl.
    destruct (ascii_lower_char_same_class c) as (_ & -> & _).
    destruct (is_space c); [|reflexivity]. simpl.
    now rewrite ascii_lower_trimStart. }
  rewrite Hsp. destruct (match_spaces1 s1) as [s2|]; [|reflexivity].
  cbn [option_map]. rewrite ascii_lower_match_literal_i.
  destruct (match_literal_i "image" s2) as [s3|]; [|reflexivity].
  cbn [option_map].
  now rewrite ascii_lower_match_opt_punct, ascii_lower_trimStart.
Qed.

Lemma ascii_lower_replace_prefix (re : string -> option string) (s : string) :
  re (ascii_lower s) = option_map ascii_lower (re s) ->
  replace_prefix re (ascii_lower s) = ascii_lower (replace_prefix re s).
Proof. intros H. unfold replace_prefix. rewrite H. now destruct (re s). Qed.

Lemma caption_ascii_lower (raw : string) :
  computeDisplayDescription (ascii_lower raw)
  = ascii_lower (computeDisplayDescription raw).
Proof.
  unfold computeDisplayDescription.
  rewrite (ascii_lower_replace_prefix match_square_image raw
             (ascii_lower_match_square_image raw)).
  rewrite (ascii_lower_replace_prefix match_squareimage _
             (ascii_lower_match_squareimage _)).
  now rewrite ascii_lower_trim.
Qed.

End CaseFacts.

(** The case of the letters A-Z in a description never decides what is
    stripped: two descriptions that differ only in the case of these
    letters have captions that differ only in the case of these letters;
    and the caption of a description with its letters A-Z lower-cased is
    the caption of the description, with its letters A-Z lower-cased. *)
Theorem computeDisplayDescription_case_insensitive (raw other : string) :
  ascii_lower other = ascii_lower raw ->
  ascii_lower (computeDisplayDescription other)
  = ascii_lower (computeDisplayDescription raw)
  /\ computeDisplayDescription (ascii_lower raw)
     = ascii_lower (computeDisplayDescription raw).
Proof.
  intros Hsame. split; [|apply caption_ascii_lower].
  rewrite <- !caption_ascii_lower. now rewrite Hsame.
Qed.

Lemma computeDisplayDescription_case_insensitive_witness :
  ascii_lower (computeDisplayDescription "SQUARE IMAGE: Judge Dredd")
  = ascii_lower (computeDisplayDescription "Square Image: judge dredd")
  /\ computeDisplayDescription (ascii_lower "Square Image: judge dredd")
     = ascii_lower (computeDisplayDescription "Square Image: judge dredd").
Proof.
  apply (computeDisplayDescription_case_insensitive
           "Square Image: judge dredd" "SQUARE IMAGE: Judge Dredd").
  reflexivity.
Defined.

Section ItemFacts.

Import App.

Variable env : Env.

Lemma image_promises_nth (ds : list string) :
  forall k j,
    nth_error (image_promises env k ds) j
    = option_map (makeGeminiRequest env (k + j)) (nth_error ds j).
Proof.
  induction ds as [|d ds IH]; intros k j.
  - destruct j; reflexivity.
  - destruct j as [|j]; simpl.
    + now rewrite Nat.add_0_r.
    + rewrite IH. now rewrite Nat.add_succ_r.
Qed.

Lemma combine_In_nth {A B} (l1 : list A) :
  forall (l2 : list B) a b,
    In (a, b) (combine l1 l2)
    <-> exists j, nth_error l1 j = Some a /\ nth_error l2 j = Some b.
Proof.
  induction l1 as [|x l1 IH]; intros l2 a b.
  - simpl. split; [contradiction|]. intros [j [H _]]. destruct j; discriminate.
  - destruct l2 as [|y l2].
    + simpl. split; [contradiction|]. intros [j [_ H]]. destruct j; discriminate.
    + simpl. rewrite IH. split.
      * intros [H|[j Hj]]; [injection H as -> ->; now exists 0|now exists (S j)].
      * intros [[|j] [H1 H2]]; simpl in *.
        -- left. congruence.
        -- right. now exists j.
Qed.

Lemma combine_map_fst_snd {A B} (l : list (A * B)) :
  combine (map fst l) (map snd l) = l.
Proof. induction l as [|[a b] l IH]; simpl; congruence. Qed.

End ItemFacts.

(** Failures are isolated: an image and a description are shown together
    after a cycle exactly when, for some position, the description is the
    one the description client gave at that position and the image call
    made for it at that position was fulfilled with this image, which is
    not empty.  What the other image calls answered plays no part. *)
Theorem displayed_items_characterised
    (env : App.Env) (s : App.AppState) (ds : list string)
    (img d : string) :
  App.accepted env s ->
  App.generateMemeDescriptions env (App.text s) = Fulfilled ds ->
  let shown := App.state (App.submit env s) in
  In (img, d) (combine (App.images shown) (App.descriptions shown))
  <-> exists j,
        nth_error ds j = Some d
        /\ App.makeGeminiRequest env j d = Fulfilled img /\ img <> "".
Proof.
  intros Hacc Hdesc shown.
  pose proof (generated_length env ds) as Hlen.
  assert (Hshown : App.images shown = filter App.non_empty (App.generated env ds)
                   /\ App.descriptions shown
                      = App.mask_by_image (App.generated env ds) ds).
  { subst shown. destruct ds as [|d0 ds'].
    - rewrite (submit_aborts env s Hacc (or_intror Hdesc)). split; reflexivity.
    - rewrite (submit_publishes env s d0 ds' Hacc Hdesc). split; reflexivity. }
  destruct Hshown as [-> ->].
  destruct (filter_pairs (App.generated env ds) ds Hlen) as [<- <-].
  rewrite combine_map_fst_snd, filter_In, combine_In_nth. cbn [fst].
  unfold App.generated.
  split.
  - intros [[j [Hg Hd]] Hne]. exists j.
    rewrite nth_error_map, image_promises_nth, Hd in Hg. simpl in Hg.
    assert (Himg : img <> "") by (intros ->; discriminate Hne).
    split; [exact Hd|]. split; [|exact Himg].
    destruct (App.makeGeminiRequest env j d) as [v|]; simpl in Hg.
    + congruence.
    + congruence.
  - intros [j (Hd & Hcall & Hne)]. split.
    + exists j. split; [|exact Hd].
      rewrite nth_error_map, image_promises_nth, Hd. simpl. now rewrite Hcall.
    + destruct (String.eqb_spec img ""); [contradiction|reflexivity].
Qed.

Lemma displayed_items_characterised_witness :
  let env := App.mock_env (Fulfilled ["Square image. One"; "Square image. Two"])
               [Rejected; Fulfilled "img2"] in
  let shown := App.state (App.submit env (App.idle "contract law")) in
  In ("img2", "Square image. Two")
    (combine (App.images shown) (App.descriptions shown)).
Proof.
  intros env shown.
  apply (displayed_items_characterised env (App.idle "contract law")
           ["Square image. One"; "Square image. Two"] "img2"
           "Square image. Two").
  - repeat split; reflexivity.
  - reflexivity.
  - exists 1. repeat split. discriminate.
Defined.
